(** * Rag-Agent: chunker, ingestion records, knowledge retriever and agent
    controller, embedded from the JavaScript sources.

    - [src/scripts/ingest.js]            : [Chunker], [Ingest], [IngestMain]
    - [src/services/ragService.js]       : [Rag]
    - [src/controllers/agentController.js] : [Agent]
    - the chat page component ([sendMessage]) : [ChatPage]

    JavaScript strings are sequences of UTF-16 code units; indices and the
    numeric parameters of the chunker are integers ([Z]).  Calls to the
    embedding model, the vector index and the language model are opaque
    effects of a small free monad ([Effects.Prog]), interpreted against an
    arbitrary [Effects.World]. *)

From Stdlib Require Import ZArith NArith List Lia Bool Ascii String Sorted Decimal
  DecimalNat.
From stdpp Require Import gmap.
Import ListNotations.

Local Open Scope Z_scope.

(** ** JavaScript strings and the String.prototype methods the code uses *)

Module JS.

(** A UTF-16 code unit. *)
Definition unit16 := N.

Definition jsstring := list unit16.

(** ASCII literal to code units. *)
Fixpoint lit (s : string) : jsstring :=
  match s with
  | EmptyString => []
  | String a s' => N_of_ascii a :: lit s'
  end.

Arguments lit : simpl never.

(** [s.length] *)
Definition strlen (s : jsstring) : Z := Z.of_nat (length s).

(** '\n' (U+000A) and the ideographic full stop (U+3002). *)
Definition LF : unit16 := 10%N.
Definition IDEOGRAPHIC_FULL_STOP : unit16 := 12290%N.

(** First position of [c] in [s], counted from [i]; [-1] when absent. *)
Fixpoint find_from (c : unit16) (s : jsstring) (i : Z) : Z :=
  match s with
  | [] => -1
  | x :: s' => if N.eqb x c then i else find_from c s' (i + 1)
  end.

(** [s.indexOf(c, position)] for a one-unit search string: the position
    is clamped to [0, s.length]. *)
Definition indexOf (s : jsstring) (c : unit16) (position : Z) : Z :=
  let start := Z.min (Z.max position 0) (strlen s) in
  find_from c (skipn (Z.to_nat start) s) start.

(** Relative index of [slice]: negative counts from the end. *)
Definition clamp_index (len k : Z) : Z :=
  if k <? 0 then Z.max (len + k) 0 else Z.min k len.

(** [s.slice(start, end)] *)
Definition slice (s : jsstring) (start end_ : Z) : jsstring :=
  let len := strlen s in
  let from := clamp_index len start in
  let to := clamp_index len end_ in
  firstn (Z.to_nat (Z.max (to - from) 0)) (skipn (Z.to_nat from) s).

(** WhiteSpace and LineTerminator code units, as stripped by [trim]. *)
Definition is_trim_unit (c : unit16) : bool :=
  ((c =? 9) || (c =? 10) || (c =? 11) || (c =? 12) || (c =? 13)
   || (c =? 32) || (c =? 160) || (c =? 5760)
   || ((8192 <=? c) && (c <=? 8202))
   || (c =? 8232) || (c =? 8233) || (c =? 8239) || (c =? 8287)
   || (c =? 12288) || (c =? 65279))%N.

Fixpoint trimStart (s : jsstring) : jsstring :=
  match s with
  | [] => []
  | x :: s' => if is_trim_unit x then trimStart s' else s
  end.

Definition trimEnd (s : jsstring) : jsstring := rev (trimStart (rev s)).

(** [s.trim()] *)
Definition trim (s : jsstring) : jsstring := trimEnd (trimStart s).

(** Truthiness of a string value. *)
Definition truthy (s : jsstring) : bool :=
  match s with [] => false | _ :: _ => true end.

(** Truthiness of a possibly [undefined] string. *)
Definition truthy_opt (v : option jsstring) : bool :=
  match v with None => false | Some s => truthy s end.

(** [a || b] on possibly [undefined] strings. *)
Definition or_else (a b : option jsstring) : option jsstring :=
  if truthy_opt a then a else b.

(** String conversion as done by [+] and by template literals. *)
Definition to_string (v : option jsstring) : jsstring :=
  match v with None => lit "undefined" | Some s => s end.

(** Strict equality [a === b] of two strings. *)
Fixpoint streq (a b : jsstring) : bool :=
  match a, b with
  | [], [] => true
  | x :: a', y :: b' => N.eqb x y && streq a' b'
  | _, _ => false
  end.

(** [blocks.join(sep)] *)
Fixpoint join (sep : jsstring) (blocks : list jsstring) : jsstring :=
  match blocks with
  | [] => []
  | [b] => b
  | b :: rest => b ++ sep ++ join sep rest
  end.

Definition digit (d : N) : unit16 := (48 + d)%N.

Fixpoint of_uint (u : Decimal.uint) : jsstring :=
  match u with
  | Decimal.Nil => []
  | Decimal.D0 u' => digit 0 :: of_uint u'
  | Decimal.D1 u' => digit 1 :: of_uint u'
  | Decimal.D2 u' => digit 2 :: of_uint u'
  | Decimal.D3 u' => digit 3 :: of_uint u'
  | Decimal.D4 u' => digit 4 :: of_uint u'
  | Decimal.D5 u' => digit 5 :: of_uint u'
  | Decimal.D6 u' => digit 6 :: of_uint u'
  | Decimal.D7 u' => digit 7 :: of_uint u'
  | Decimal.D8 u' => digit 8 :: of_uint u'
  | Decimal.D9 u' => digit 9 :: of_uint u'
  end.

(** String conversion of an array index. *)
Definition of_index (n : nat) : jsstring := of_uint (Nat.to_uint n).

End JS.

Import JS.

(** ** The chunker ([chunkText], ingest.js lines 18-47) *)

Module Chunker.

(** Lines 26-35: boundary adjustment of the nominal end. *)
Definition adjust_end (text : jsstring) (endIndex : Z) : Z :=
  if endIndex <? strlen text then
    let nextNewline := indexOf text LF endIndex in
    let nextPeriod := indexOf text IDEOGRAPHIC_FULL_STOP endIndex in
    if negb (nextNewline =? -1) && (nextNewline - endIndex <? 50) then
      nextNewline
    else if negb (nextPeriod =? -1) && (nextPeriod - endIndex <? 50) then
      nextPeriod + 1
    else endIndex
  else endIndex.

(** One iteration of the [while] body (lines 23-44): the chunk pushed and
    the next value of [startIndex]. *)
Definition chunk_step (text : jsstring) (chunkSize overlap startIndex : Z)
  : jsstring * Z :=
  let endIndex := adjust_end text (startIndex + chunkSize) in
  let chunk := trim (slice text startIndex endIndex) in
  let startIndex1 := endIndex - overlap in
  let startIndex2 :=
    if startIndex1 <=? strlen chunk - chunkSize
    then startIndex1 + overlap else startIndex1 in
  (chunk, startIndex2).

(** The [while] loop, with the start offset of every iteration recorded
    next to the chunk it pushed.  [None]: the fuel ran out. *)
Fixpoint chunk_loop (fuel : nat) (text : jsstring)
         (chunkSize overlap startIndex : Z) : option (list (Z * jsstring)) :=
  if startIndex <? strlen text then
    match fuel with
    | O => None
    | S fuel' =>
        let '(chunk, next) := chunk_step text chunkSize overlap startIndex in
        option_map (cons (startIndex, chunk))
                   (chunk_loop fuel' text chunkSize overlap next)
    end
  else Some [].

Definition MIN_CHUNK_LENGTH : Z := 10.

(** Line 46: the final filter. *)
Definition keep (chunk : jsstring) : bool := MIN_CHUNK_LENGTH <? strlen chunk.

Definition chunkText (fuel : nat) (text : jsstring) (chunkSize overlap : Z)
  : option (list jsstring) :=
  option_map (fun trace => List.filter keep (map snd trace))
             (chunk_loop fuel text chunkSize overlap 0).

(** Start offsets of the successive iterations. *)
Definition start_offsets (fuel : nat) (text : jsstring) (chunkSize overlap : Z)
  : option (list Z) :=
  option_map (map fst) (chunk_loop fuel text chunkSize overlap 0).

End Chunker.

Import Chunker.

(** ** Ingestion records ([main], ingest.js lines 66-117) *)

Module Ingest.

Definition CHUNK_SIZE : Z := 500.
Definition CHUNK_OVERLAP : Z := 100.

(** An embedding vector; its components are opaque to the code. *)
Definition embedding := list Z.

(** Lines 78-82: an element of [allChunks]. *)
Record ChunkInfo := {
  text : jsstring;
  source : jsstring;
  chunkIndex : nat
}.

(** Lines 108-111: the metadata object written with a record. *)
Record Metadata := {
  md_text : jsstring;
  md_source : jsstring
}.

(** Lines 105-112: an element of [vectors].  [values] is [embeddings[i]],
    [undefined] past the end of the array. *)
Record IndexRecord := {
  id : jsstring;
  values : option embedding;
  metadata : Metadata
}.

(** Lines 77-83: [chunks.forEach((chunk, i) => allChunks.push(...))]. *)
Definition file_chunks (file : jsstring) (chunks : list jsstring)
  : list ChunkInfo :=
  imap (fun i chunk => {| text := chunk; source := file; chunkIndex := i |})
       chunks.

(** Lines 69-84, over the (file name, content) pairs read from the docs
    directory.  [None] only if the chunker ran out of fuel. *)
Fixpoint allChunks (files : list (jsstring * jsstring))
  : option (list ChunkInfo) :=
  match files with
  | [] => Some []
  | (file, content) :: rest =>
      match chunkText (length content) content CHUNK_SIZE CHUNK_OVERLAP,
            allChunks rest with
      | Some chunks, Some more => Some (file_chunks file chunks ++ more)
      | _, _ => None
      end
  end.

(** Line 106: [`${chunkInfo.source}-chunk-${chunkInfo.chunkIndex}`]. *)
Definition record_id (chunkInfo : ChunkInfo) : jsstring :=
  source chunkInfo ++ lit "-chunk-" ++ of_index (chunkIndex chunkInfo).

(** Lines 105-112. *)
Definition vectors (all : list ChunkInfo) (embeddings : list embedding)
  : list IndexRecord :=
  imap (fun i chunkInfo =>
          {| id := record_id chunkInfo;
             values := nth_error embeddings i;
             metadata := {| md_text := text chunkInfo;
                            md_source := source chunkInfo |} |})
       all.

(** The records one run hands to [index.upsert], given the documents and
    the embeddings returned by [embedMany]. *)
Definition ingest_records (files : list (jsstring * jsstring))
           (embeddings : list embedding) : option (list IndexRecord) :=
  option_map (fun all => vectors all embeddings) (allChunks files).

(** Modelled from the spec: the vector index is an external collaborator
    (spec 4.3); [upsert] writes each record under its id, replacing the
    record already stored under that id.  The state is the content of the
    one namespace the code uses. *)
Definition upsert (store : gmap jsstring IndexRecord)
           (records : list IndexRecord) : gmap jsstring IndexRecord :=
  fold_left (fun st r => <[id r := r]> st) records store.

End Ingest.

(** ** External calls as effects *)

Module Effects.

Inductive JsError :=
| TypeError (message : jsstring)
| UpstreamError (message : jsstring).

(** Result of an awaited call or of a callback: a value or an exception. *)
Inductive Outcome (A : Type) : Type :=
| Ok (a : A)
| Threw (e : JsError).
Arguments Ok {A} a.
Arguments Threw {A} e.

(** Argument of [embed]. *)
Record EmbedRequest := {
  embed_model : jsstring;
  embed_value : jsstring
}.

(** Metadata of a match as the index returns it; either field may be
    absent. *)
Record MatchMetadata := {
  mm_text : option jsstring;
  mm_source : option jsstring
}.

Record Match := {
  match_id : jsstring;
  match_metadata : option MatchMetadata
}.

(** Argument of [index.namespace(ns).query]. *)
Record QueryRequest := {
  q_namespace : jsstring;
  q_vector : Ingest.embedding;
  q_topK : nat;
  q_includeMetadata : bool
}.

Record QueryResponse := {
  matches : option (list Match)
}.

(** A content part of a step of [generateText]'s result. *)
Record Part := {
  part_type : jsstring;
  part_result : option jsstring;
  part_output : option jsstring
}.

Record Step := {
  content : option (list Part)
}.

Record GenResult := {
  gr_text : option jsstring;
  gr_steps : list Step
}.

(** The [execute] callback of a tool, as a closure over its captured
    variables: the only one in the code captures [prompt]
    (agentController.js lines 30-35). *)
Inductive Closure :=
| SearchExecute (prompt : jsstring).

Record Tool := {
  tool_name : jsstring;
  tool_description : jsstring;
  tool_execute : Closure
}.

(** Argument of [generateText]. *)
Record GenRequest := {
  g_model : jsstring;
  g_system : jsstring;
  g_prompt : jsstring;
  g_tools : list Tool;
  g_maxSteps : option nat
}.

(** Programs over the three external calls.  A continuation receives the
    outcome of the call, so that [try]/[catch] sees its exception. *)
Inductive Prog (R : Type) : Type :=
| Ret (r : R)
| Throw (e : JsError)
| Embed (req : EmbedRequest) (k : Outcome Ingest.embedding -> Prog R)
| Query (req : QueryRequest) (k : Outcome QueryResponse -> Prog R)
| GenerateText (req : GenRequest) (k : Outcome GenResult -> Prog R).
Arguments Ret {R} r.
Arguments Throw {R} e.
Arguments Embed {R} req k.
Arguments Query {R} req k.
Arguments GenerateText {R} req k.

Fixpoint bind {A B : Type} (p : Prog A) (f : A -> Prog B) : Prog B :=
  match p with
  | Ret a => f a
  | Throw e => Throw e
  | Embed req k => Embed req (fun o => bind (k o) f)
  | Query req k => Query req (fun o => bind (k o) f)
  | GenerateText req k => GenerateText req (fun o => bind (k o) f)
  end.

(** [try { p } catch (error) { handler(error) }] *)
Fixpoint try_catch {A : Type} (p : Prog A) (handler : JsError -> Prog A)
  : Prog A :=
  match p with
  | Ret a => Ret a
  | Throw e => handler e
  | Embed req k => Embed req (fun o => try_catch (k o) handler)
  | Query req k => Query req (fun o => try_catch (k o) handler)
  | GenerateText req k => GenerateText req (fun o => try_catch (k o) handler)
  end.

(** An awaited value: the exception of a failed call is rethrown. *)
Definition await {A : Type} (o : Outcome A) : Prog A :=
  match o with
  | Ok a => Ret a
  | Threw e => Throw e
  end.

Definition embed (req : EmbedRequest) : Prog Ingest.embedding :=
  Embed req await.
Definition query (req : QueryRequest) : Prog QueryResponse :=
  Query req await.
Definition generateText (req : GenRequest) : Prog GenResult :=
  GenerateText req await.

(** The external calls a run performed, in order. *)
Inductive Event :=
| EvEmbed (req : EmbedRequest)
| EvQuery (req : QueryRequest)
| EvGenerateText (req : GenRequest).

(** The collaborators: each answers a call knowing the calls made so far,
    with a value or an exception. *)
Record World := {
  w_embed : list Event -> EmbedRequest -> Outcome Ingest.embedding;
  w_query : list Event -> QueryRequest -> Outcome QueryResponse;
  w_generateText : list Event -> GenRequest -> Outcome GenResult
}.

(** Runs [p] against [w] after the calls [history]: the calls made by [p]
    and its outcome. *)
Fixpoint run_from {R : Type} (w : World) (history : list Event) (p : Prog R)
  : list Event * Outcome R :=
  match p with
  | Ret r => ([], Ok r)
  | Throw e => ([], Threw e)
  | Embed req k =>
      let '(evs, o) :=
        run_from w (history ++ [EvEmbed req]) (k (w_embed w history req)) in
      (EvEmbed req :: evs, o)
  | Query req k =>
      let '(evs, o) :=
        run_from w (history ++ [EvQuery req]) (k (w_query w history req)) in
      (EvQuery req :: evs, o)
  | GenerateText req k =>
      let '(evs, o) :=
        run_from w (history ++ [EvGenerateText req])
                 (k (w_generateText w history req)) in
      (EvGenerateText req :: evs, o)
  end.

Definition run {R : Type} (w : World) (p : Prog R) : list Event * Outcome R :=
  run_from w [] p.

Definition is_model_call (ev : Event) : bool :=
  match ev with EvGenerateText _ => true | _ => false end.

(** Number of language-model calls in a run. *)
Definition model_calls (evs : list Event) : nat :=
  length (List.filter is_model_call evs).

End Effects.

Import Effects.

Declare Scope prog_scope.
Delimit Scope prog_scope with prog.
Notation "x <- p ;; q" := (bind p (fun x => q))
  (at level 100, p at next level, right associativity) : prog_scope.

(** ** The knowledge retriever ([retrieveKnowledge], ragService.js) *)

Module Rag.

Definition NAMESPACE : jsstring := lit "my-company-docs".
Definition EMBEDDING_MODEL : jsstring := lit "gemini-embedding-001".
Definition TOP_K : nat := 2.

(** Line 24. *)
Definition NO_MATCH : jsstring :=
  lit "No relevant information found in the knowledge base.".

(** Line 34: the separator given to [join]: two line feeds, three
    hyphens, two line feeds. *)
Definition SEPARATOR : jsstring := [LF; LF] ++ lit "---" ++ [LF; LF].

(** Line 31: [match.metadata.source || 'unknown document']. *)
Definition sourceName (md : MatchMetadata) : jsstring :=
  to_string (or_else (mm_source md) (Some (lit "unknown document"))).

(** Lines 30-33: the [map] callback.  Reading a property of an absent
    [metadata] throws. *)
Definition block (m : Match) : Outcome jsstring :=
  match match_metadata m with
  | None => Threw (TypeError (lit "Cannot read properties of undefined"))
  | Some md =>
      Ok (lit "[source: " ++ sourceName md ++ lit "]" ++ [LF]
          ++ to_string (mm_text md))
  end.

(** [matches.map(callback)]: the first exception aborts the map. *)
Fixpoint map_blocks (ms : list Match) : Outcome (list jsstring) :=
  match ms with
  | [] => Ok []
  | m :: rest =>
      match block m with
      | Threw e => Threw e
      | Ok b =>
          match map_blocks rest with
          | Threw e => Threw e
          | Ok bs => Ok (b :: bs)
          end
      end
  end.

(** Lines 29-34. *)
Definition format_context (ms : list Match) : Outcome jsstring :=
  match map_blocks ms with
  | Threw e => Threw e
  | Ok blocks => Ok (join SEPARATOR blocks)
  end.

(** Lines 11-14: the argument of [embed]. *)
Definition embed_request (query_ : jsstring) : EmbedRequest :=
  {| embed_model := EMBEDDING_MODEL; embed_value := query_ |}.

(** Lines 17-21: the argument of [query]. *)
Definition query_request (embedding : Ingest.embedding) : QueryRequest :=
  {| q_namespace := NAMESPACE;
     q_vector := embedding;
     q_topK := TOP_K;
     q_includeMetadata := true |}.

Definition retrieveKnowledge (query_ : jsstring) : Prog jsstring :=
  (embedding <- embed (embed_request query_) ;;
   queryResponse <- query (query_request embedding) ;;
   match matches queryResponse with
   | None => Ret NO_MATCH
   | Some [] => Ret NO_MATCH
   | Some ms => await (format_context ms)
   end)%prog.

End Rag.

(** ** The agent controller ([chatWithAgent], agentController.js) *)

Module Agent.

(** Arguments the model passes to the tool: [{query?: string}]. *)
Record ToolArgs := {
  arg_query : option jsstring
}.

(** Lines 30-35: the tool's [execute]. *)
Definition searchCompanyDocs_execute (prompt : jsstring) (args : ToolArgs)
  : Prog jsstring :=
  let searchQuery := to_string (or_else (arg_query args) (Some prompt)) in
  Rag.retrieveKnowledge searchQuery.

(** What running a tool closure does. *)
Definition apply_closure (c : Closure) (args : ToolArgs) : Prog jsstring :=
  match c with
  | SearchExecute prompt => searchCompanyDocs_execute prompt args
  end.

Definition MODEL : jsstring := lit "gemini-2.5-flash".

Definition SYSTEM_PRIMARY : jsstring :=
  lit "You are a professional full-stack developer assistant.
               Directives:
               1. You MUST use the searchCompanyDocs tool for any questions regarding project architecture, auth, or deployment.
               2. Once you receive the tool output, combine it with your knowledge to give a detailed, helpful answer.
               3. Always respond in the same language as the user's question.".

Definition SYSTEM_FALLBACK : jsstring :=
  lit "You are a professional R&D assistant. Based on the provided <Context>, answer the user's question in a professional and concise manner. At the end of your answer, be sure to indicate [source file] used as reference.".

Definition searchCompanyDocs (prompt : jsstring) : Tool :=
  {| tool_name := lit "searchCompanyDocs";
     tool_description :=
       lit "Search internal project documentation for frontend, backend, auth, and deployment specs.";
     tool_execute := SearchExecute prompt |}.

(** Lines 15-39: the argument of the first [generateText]. *)
Definition primary_request (prompt : jsstring) : GenRequest :=
  {| g_model := MODEL;
     g_system := SYSTEM_PRIMARY;
     g_prompt := prompt;
     g_tools := [searchCompanyDocs prompt];
     g_maxSteps := Some 5%nat |}.

(** Lines 64-69: the argument of the second [generateText]; no tools. *)
Definition fallback_request (prompt rawToolOutput : jsstring) : GenRequest :=
  {| g_model := MODEL;
     g_system := SYSTEM_FALLBACK;
     g_prompt := lit "User Question: " ++ prompt ++ [LF; LF]
                 ++ lit "<Context>" ++ [LF] ++ rawToolOutput ++ [LF]
                 ++ lit "</Context>";
     g_tools := [];
     g_maxSteps := None |}.

(** Lines 54-56, for one content part. *)
Definition add_part (rawToolOutput : jsstring) (part : Part) : jsstring :=
  if streq (part_type part) (lit "tool-result") then
    rawToolOutput ++ to_string (or_else (part_result part) (part_output part))
                  ++ [LF]
  else rawToolOutput.

(** Lines 52-58, for one step. *)
Definition add_step (rawToolOutput : jsstring) (step : Step) : jsstring :=
  match content step with
  | None => rawToolOutput
  | Some parts => fold_left add_part parts rawToolOutput
  end.

(** Lines 49-59. *)
Definition collect_tool_output (steps : list Step) : jsstring :=
  fold_left add_step steps [].

Definition APOLOGY : jsstring :=
  lit "Sorry, I found information in the documentation, but couldn't properly summarize it.".

(** Lines 75-78: the final safety net. *)
Definition safety_net (finalAnswer : option jsstring) : jsstring :=
  match finalAnswer with
  | None => APOLOGY
  | Some s =>
      if negb (truthy s) || streq s (lit "undefined") then APOLOGY else s
  end.

(** The parsed JSON body: [{prompt?: string}]. *)
Record ReqBody := {
  prompt : option jsstring
}.

Record Request := {
  req_body : option ReqBody
}.

Inductive ResBody :=
| ErrorBody (error : jsstring)
| ChatBody (question answer : jsstring).

Record Response := {
  status : Z;
  res_body : ResBody
}.

(** Lines 42-72: the answer before the safety net. *)
Definition extract_answer (prompt_ : jsstring) (result : GenResult)
  : Prog (option jsstring) :=
  let finalAnswer := gr_text result in
  if negb (truthy_opt finalAnswer) then
    let rawToolOutput := collect_tool_output (gr_steps result) in
    if truthy rawToolOutput then
      (summaryResult <- generateText (fallback_request prompt_ rawToolOutput) ;;
       Ret (gr_text summaryResult))%prog
    else Ret finalAnswer
  else Ret finalAnswer.

(** Lines 8-83: the body of the [try]. *)
Definition chat_body (req : Request) : Prog Response :=
  match req_body req with
  | None => Throw (TypeError (lit "Cannot destructure property 'prompt'"))
  | Some b =>
      if negb (truthy_opt (prompt b)) then
        Ret {| status := 400;
               res_body := ErrorBody (lit "Prompt is required") |}
      else
        let prompt_ := to_string (prompt b) in
        (result <- generateText (primary_request prompt_) ;;
         finalAnswer <- extract_answer prompt_ result ;;
         Ret {| status := 200;
                res_body := ChatBody prompt_ (safety_net finalAnswer) |})%prog
  end.

(** Lines 6-89. *)
Definition chatWithAgent (req : Request) : Prog Response :=
  try_catch (chat_body req)
    (fun error =>
       Ret {| status := 500;
              res_body := ErrorBody (lit "Internal Server Error") |}).

End Agent.

(** ** Vocabulary of the statements *)

Module Spec.

(** The code unit at index [k], if any. *)
Definition unit_at (text : jsstring) (k : Z) : option unit16 :=
  if k <? 0 then None else nth_error text (Z.to_nat k).

(** [p] is the first index at or after [from] where [text] holds [c]. *)
Definition first_at (text : jsstring) (c : unit16) (from p : Z) : Prop :=
  Z.max from 0 <= p < strlen text
  /\ unit_at text p = Some c
  /\ forall k, Z.max from 0 <= k < p -> unit_at text k <> Some c.

(** [text] holds no [c] at or after [from]. *)
Definition absent_from (text : jsstring) (c : unit16) (from : Z) : Prop :=
  forall k, Z.max from 0 <= k < strlen text -> unit_at text k <> Some c.

(** The lookahead window of the chunker. *)
Definition LOOKAHEAD : Z := 50.

(** The boundary rule in the words of the specification: the nearest line
    break or sentence terminator within the window past the nominal end,
    whichever of the two kinds it is. *)
Definition is_boundary (c : unit16) : bool :=
  N.eqb c LF || N.eqb c IDEOGRAPHIC_FULL_STOP.

Fixpoint scan_boundary (window : nat) (s : jsstring) (i : Z) : option Z :=
  match window, s with
  | S w, x :: s' => if is_boundary x then Some i else scan_boundary w s' (i + 1)
  | _, _ => None
  end.

Definition spec_nearest_boundary (text : jsstring) (nominal : Z) : option Z :=
  let from := Z.max nominal 0 in
  scan_boundary (Z.to_nat (nominal + LOOKAHEAD - from))
                (skipn (Z.to_nat from) text) from.

(** "If one is found within that window the chunk is cut there": at the
    boundary unit, before or after it. *)
Definition spec_cuts_at_nearest (text : jsstring) (chunkSize startIndex : Z)
  : Prop :=
  forall p,
    spec_nearest_boundary text (startIndex + chunkSize) = Some p ->
    adjust_end text (startIndex + chunkSize) = p
    \/ adjust_end text (startIndex + chunkSize) = p + 1.

(** The source a match was stored with, when it has one. *)
Definition stored_source (m : Match) : option jsstring :=
  match match_metadata m with
  | Some md =>
      match mm_source md with
      | Some (x :: s) => Some (x :: s)
      | _ => None
      end
  | None => None
  end.

Definition spec_label (m : Match) : jsstring :=
  match stored_source m with
  | Some s => s
  | None => lit "unknown document"
  end.

(** The text a match was stored with. *)
Definition stored_text (m : Match) : option jsstring :=
  match match_metadata m with
  | Some md => mm_text md
  | None => None
  end.

(** A labelled block: [[source: <label>]], a line feed, the text. *)
Definition spec_block (label text : jsstring) : jsstring :=
  lit "[source: " ++ label ++ lit "]" ++ [LF] ++ text.

(** The index honours [topK] (spec 3: "at most topK returned"). *)
Definition honours_topK (w : World) : Prop :=
  forall history req response ms,
    w_query w history req = Ok response ->
    matches response = Some ms ->
    (length ms <= q_topK req)%nat.

Definition is_tool_result (part : Part) : bool :=
  streq (part_type part) (lit "tool-result").

(** The transcript holds at least one tool-result part. *)
Definition has_tool_result (steps : list Step) : bool :=
  existsb (fun step =>
             match content step with
             | Some parts => existsb is_tool_result parts
             | None => false
             end) steps.

(** C2 in the words of the specification: whenever the primary call ends
    without text, exactly one more model call is made. *)
Definition spec_fallback_always_runs (w : World) (req : Agent.Request)
  : Prop :=
  forall b p result,
    Agent.req_body req = Some b ->
    Agent.prompt b = Some p ->
    truthy p = true ->
    w_generateText w [] (Agent.primary_request p) = Ok result ->
    truthy_opt (gr_text result) = false ->
    model_calls (fst (run w (Agent.chatWithAgent req))) = 2%nat.

(** No language-model call of the world throws. *)
Definition model_never_throws (w : World) : Prop :=
  forall history req, exists result, w_generateText w history req = Ok result.

End Spec.

Import Spec.

(** ** Concrete inputs used below *)

Module Demo.

Definition fox : jsstring := lit "The quick brown fox jumps over the lazy dog".

(** "ab。cd\nefgh": a full stop at index 2, a line feed at index 5. *)
Definition stop_then_newline : jsstring :=
  lit "ab" ++ [IDEOGRAPHIC_FULL_STOP] ++ lit "cd" ++ [LF] ++ lit "efgh".

Definition hello : Agent.Request :=
  {| Agent.req_body := Some {| Agent.prompt := Some (lit "hello") |} |}.

Definition empty_prompt : Agent.Request :=
  {| Agent.req_body := Some {| Agent.prompt := Some [] |} |}.

Definition match_a : Match :=
  {| match_id := lit "a.md-chunk-0";
     match_metadata := Some {| mm_text := Some (lit "Next.js App Router");
                               mm_source := Some (lit "a.md") |} |}.

Definition match_b : Match :=
  {| match_id := lit "b.md-chunk-3";
     match_metadata := Some {| mm_text := Some (lit "JWT auth");
                               mm_source := None |} |}.

(** A model that never produces text and never calls the tool. *)
Definition silent_world : World :=
  {| w_embed := fun _ _ => Ok [];
     w_query := fun _ _ => Ok {| matches := Some [] |};
     w_generateText := fun _ _ => Ok {| gr_text := Some []; gr_steps := [] |} |}.

Definition tool_step : Step :=
  {| content := Some [ {| part_type := lit "tool-result";
                          part_result := None;
                          part_output := Some (lit "[source: a.md]") |} ] |}.

(** A model that answers only once it is called without tools. *)
Definition polishing_world : World :=
  {| w_embed := fun _ _ => Ok [];
     w_query := fun _ _ => Ok {| matches := Some [match_a; match_b] |};
     w_generateText := fun _ req =>
       match g_tools req with
       | [] => Ok {| gr_text := Some (lit "We use Next.js [a.md]");
                     gr_steps := [] |}
       | _ :: _ => Ok {| gr_text := Some []; gr_steps := [tool_step] |}
       end |}.

(** A match stored with an empty source. *)
Definition match_c : Match :=
  {| match_id := lit "-chunk-1";
     match_metadata := Some {| mm_text := Some (lit "Deploy on Vercel");
                               mm_source := Some [] |} |}.

(** An index that ignores [topK] and always returns three matches. *)
Definition generous_world : World :=
  {| w_embed := fun _ _ => Ok [];
     w_query := fun _ _ => Ok {| matches := Some [match_a; match_b; match_c] |};
     w_generateText := fun _ _ => Ok {| gr_text := Some []; gr_steps := [] |} |}.

(** A request without a parsed body. *)
Definition no_body : Agent.Request := {| Agent.req_body := None |}.

(** Leading white space makes the trimmed chunk shorter than the slice. *)
Definition padded : jsstring := lit " abcdefghij".

Definition docs : list (jsstring * jsstring) :=
  [(lit "a.md", lit "Frontend: Next.js App Router with Tailwind.")].

End Demo.

(** ** The ingestion script ([main], ingest.js lines 49-125) *)

Module IngestMain.

(** [s.endsWith(suffix)] *)
Definition endsWith (s suffix : jsstring) : bool :=
  (length suffix <=? length s)%nat
  && streq (skipn (length s - length suffix) s) suffix.

(** Line 60: the filter on the directory listing. *)
Definition is_doc (f : jsstring) : bool :=
  endsWith f (lit ".md") || endsWith f (lit ".txt").

(** An entry of the docs directory: the name [readdirSync] lists and what
    [readFileSync] returns, or throws, for it. *)
Record Entry := {
  entry_name : jsstring;
  entry_content : Outcome jsstring
}.

(** Lines 69-71: the selected files are read in order; the first failure
    is thrown. *)
Fixpoint read_files (entries : list Entry)
  : Outcome (list (jsstring * jsstring)) :=
  match entries with
  | [] => Ok []
  | e :: rest =>
      match entry_content e with
      | Threw err => Threw err
      | Ok content =>
          match read_files rest with
          | Threw err => Threw err
          | Ok more => Ok ((entry_name e, content) :: more)
          end
      end
  end.

Definition EMBEDDING_MODEL : jsstring := lit "gemini-embedding-001".
Definition NAMESPACE : jsstring := lit "my-company-docs".

(** The external calls of the script. *)
Inductive IngestEvent :=
| EvEmbedMany (model : jsstring) (values : list jsstring)
| EvUpsert (namespace : jsstring) (records : list Ingest.IndexRecord).

(** The embedding service and the index, as the script calls them. *)
Record IngestWorld := {
  w_embedMany : jsstring -> list jsstring -> Outcome (list Ingest.embedding);
  w_upsert : jsstring -> list Ingest.IndexRecord -> Outcome unit
}.

(** How a run of [main] ends: it returns, its promise rejects, or (in the
    model only) a chunker call ran out of fuel. *)
Inductive Completion :=
| Returned
| Rejected (e : JsError)
| OutOfFuel.

(** Lines 49-125.  [dir] is [None] when the docs directory does not
    exist. *)
Definition main (w : IngestWorld) (dir : option (list Entry))
  : list IngestEvent * Completion :=
  match dir with
  | None => ([], Returned)
  | Some entries =>
      let files := List.filter (fun e => is_doc (entry_name e)) entries in
      match files with
      | [] => ([], Returned)
      | _ :: _ =>
          match read_files files with
          | Threw e => ([], Rejected e)
          | Ok contents =>
              match Ingest.allChunks contents with
              | None => ([], OutOfFuel)
              | Some allChunks =>
                  let textsToEmbed := map Ingest.text allChunks in
                  match w_embedMany w EMBEDDING_MODEL textsToEmbed with
                  | Threw _ =>
                      ([EvEmbedMany EMBEDDING_MODEL textsToEmbed], Returned)
                  | Ok embeddings =>
                      let vectors := Ingest.vectors allChunks embeddings in
                      match w_upsert w NAMESPACE vectors with
                      | _ =>
                          ([EvEmbedMany EMBEDDING_MODEL textsToEmbed;
                            EvUpsert NAMESPACE vectors], Returned)
                      end
                  end
              end
          end
      end
  end.

End IngestMain.

(** ** The chat page ([sendMessage] of the page component) *)

Module ChatPage.

Inductive Role := User | Assistant.

Record Message := {
  msg_id : jsstring;
  msg_role : Role;
  msg_content : jsstring;
  msg_timestamp : Z
}.

(** The three state variables of the component. *)
Record PageState := {
  messages : list Message;
  input : jsstring;
  isLoading : bool
}.

(** A caught value: an [Error] instance with its message, or another
    value. *)
Inductive Thrown :=
| ErrorInstance (message : jsstring)
| OtherValue.

(** A settled promise. *)
Inductive Settled (A : Type) : Type :=
| Fulfilled (a : A)
| RejectedWith (t : Thrown).
Arguments Fulfilled {A} a.
Arguments RejectedWith {A} t.

(** The parsed response body, an object; [answer] is its answer field when
    it has one. *)
Record JsonData := {
  answer : option jsstring
}.

Record HttpResponse := {
  ok : bool;
  http_status : nat;
  json : Settled JsonData
}.

(** The arguments of [fetch]; [body_prompt] is the prompt of the
    JSON-encoded body [{prompt}]. *)
Record FetchRequest := {
  url : jsstring;
  method : jsstring;
  content_type : jsstring;
  body_prompt : jsstring
}.

(** The warning sign U+26A0 followed by the variation selector U+FE0F. *)
Definition WARNING : jsstring := [9888; 65039]%N.

(** The content of the message built in the [catch] block. *)
Definition error_content (error : Thrown) : jsstring :=
  match error with
  | ErrorInstance message => WARNING ++ lit " Error: " ++ message
  | OtherValue =>
      WARNING ++ lit " An unexpected error occurred. Please try again."
  end.

(** The part of [sendMessage] before the [await]: the guard, the user
    message, the three state updates and the request handed to [fetch].
    [None]: returned at the guard.  [id] and [timestamp] are the values of
    [crypto.randomUUID()] and [new Date()]. *)
Definition begin_send (api_url id : jsstring) (timestamp : Z) (st : PageState)
  : option (PageState * FetchRequest) :=
  let trimmed := trim (input st) in
  if negb (truthy trimmed) || isLoading st then None
  else
    let userMessage :=
      {| msg_id := id; msg_role := User; msg_content := trimmed;
         msg_timestamp := timestamp |} in
    Some ({| messages := messages st ++ [userMessage];
             input := [];
             isLoading := true |},
          {| url := api_url ++ lit "/api/chat";
             method := lit "POST";
             content_type := lit "application/json";
             body_prompt := trimmed |}).

(** The content of the assistant message, from the settled [fetch]. *)
Definition reply_content (outcome : Settled HttpResponse) : jsstring :=
  match outcome with
  | RejectedWith error => error_content error
  | Fulfilled res =>
      if negb (ok res) then
        error_content
          (ErrorInstance (lit "Server error: " ++ of_index (http_status res)))
      else
        match json res with
        | RejectedWith error => error_content error
        | Fulfilled data =>
            to_string (or_else (answer data)
                               (Some (lit "Sorry, no response received.")))
        end
  end.

(** The part of [sendMessage] after the [await], applied to the state then
    current: the functional update of the messages and the [finally]. *)
Definition finish_send (id : jsstring) (timestamp : Z)
           (outcome : Settled HttpResponse) (st : PageState) : PageState :=
  {| messages :=
       messages st
       ++ [ {| msg_id := id; msg_role := Assistant;
               msg_content := reply_content outcome;
               msg_timestamp := timestamp |} ];
     input := input st;
     isLoading := false |}.


(** server.js lines 10 and 18: the request the chat handler receives for a
    [fetch] of the page, its JSON body parsed. *)
Definition handler_request (req : FetchRequest) : Agent.Request :=
  {| Agent.req_body := Some {| Agent.prompt := Some (body_prompt req) |} |}.

End ChatPage.

(** ** Further vocabulary *)

Module Terms.

(** [piece] occurs in [text] as a run of consecutive units. *)
Definition infix_of (piece text : jsstring) : Prop :=
  exists before after, text = before ++ piece ++ after.

(** The payload line 55 reads from a tool-result part. *)
Definition payload (part : Part) : jsstring :=
  match part_result part with
  | Some (x :: s) => x :: s
  | _ =>
      match part_output part with
      | Some s => s
      | None => lit "undefined"
      end
  end.

(** The payloads of the tool-result parts of a transcript, in order. *)
Definition tool_payloads (steps : list Step) : list jsstring :=
  flat_map (fun step =>
              match content step with
              | Some parts => map payload (List.filter is_tool_result parts)
              | None => []
              end) steps.

(** Modelled from the spec: the vector index is an external collaborator;
    with [includeMetadata] it returns a stored record as a match carrying
    the stored text and source (spec 4.3). *)
Definition match_of_record (r : Ingest.IndexRecord) : Match :=
  {| match_id := Ingest.id r;
     match_metadata :=
       Some {| mm_text := Some (Ingest.md_text (Ingest.metadata r));
               mm_source := Some (Ingest.md_source (Ingest.metadata r)) |} |}.

Definition HYPHEN : unit16 := 45%N.

End Terms.

Import Terms.

(** ** More concrete inputs *)

Module Fixtures.

Definition notes : IngestMain.Entry :=
  {| IngestMain.entry_name := lit "notes.md";
     IngestMain.entry_content :=
       Ok (lit "Backend: Express server with a RAG agent controller.") |}.

Definition image : IngestMain.Entry :=
  {| IngestMain.entry_name := lit "logo.png";
     IngestMain.entry_content := Ok (lit "binary") |}.


Definition steady_services : IngestMain.IngestWorld :=
  {| IngestMain.w_embedMany := fun _ values => Ok (map (fun _ => [1; 2]) values);
     IngestMain.w_upsert := fun _ _ => Ok tt |}.

Definition failing_embedder : IngestMain.IngestWorld :=
  {| IngestMain.w_embedMany := fun _ _ => Threw (UpstreamError (lit "quota"));
     IngestMain.w_upsert := fun _ _ => Ok tt |}.

(** An embedding service that is down. *)
Definition offline_world : World :=
  {| w_embed := fun _ _ => Threw (UpstreamError (lit "ECONNREFUSED"));
     w_query := fun _ _ => Ok {| matches := Some [] |};
     w_generateText := fun _ _ => Threw (UpstreamError (lit "ECONNREFUSED")) |}.

(** A model that answers directly. *)
Definition direct_world : World :=
  {| w_embed := fun _ _ => Ok [];
     w_query := fun _ _ => Ok {| matches := Some [] |};
     w_generateText := fun _ _ =>
       Ok {| gr_text := Some (lit "Use the App Router."); gr_steps := [] |} |}.

Definition bare_match : Match :=
  {| match_id := lit "x"; match_metadata := None |}.

(** A model whose primary call ends with the text 'undefined' after a tool
    call. *)
Definition undefined_world : World :=
  {| w_embed := fun _ _ => Ok [];
     w_query := fun _ _ => Ok {| matches := Some [] |};
     w_generateText := fun _ _ =>
       Ok {| gr_text := Some (lit "undefined");
             gr_steps := [Demo.tool_step] |} |}.

Definition typing : ChatPage.PageState :=
  {| ChatPage.messages := [];
     ChatPage.input := lit "  How does auth work?  ";
     ChatPage.isLoading := false |}.

End Fixtures.

(** * Properties *)

(** ** String primitives *)

Section StringFacts.

Lemma strlen_nonneg (s : jsstring) : 0 <= strlen s.
Proof. unfold strlen. lia. Qed.

Lemma find_from_range (c : unit16) (s : jsstring) (i : Z) :
  find_from c s i = -1 \/ i <= find_from c s i < i + strlen s.
Proof.
  revert i. induction s as [|x s IH]; intros i; simpl; [now left|].
  destruct (N.eqb x c).
  - right. unfold strlen. simpl length. lia.
  - destruct (IH (i + 1)) as [H|H]; [now left|right].
    unfold strlen in *. simpl length. lia.
Qed.

Lemma indexOf_range (s : jsstring) (c : unit16) (position : Z) :
  indexOf s c position = -1
  \/ Z.max position 0 <= indexOf s c position < strlen s.
Proof.
  unfold indexOf.
  set (start := Z.min (Z.max position 0) (strlen s)).
  destruct (find_from_range c (skipn (Z.to_nat start) s) start) as [H|H];
    [now left|].
  assert (Hlen : strlen (skipn (Z.to_nat start) s) = strlen s - start).
  { unfold strlen. rewrite length_skipn.
    pose proof (strlen_nonneg s). unfold strlen in *. subst start. lia. }
  rewrite Hlen in H.
  destruct (Z_lt_le_dec (Z.max position 0) (strlen s)) as [Hlt|Hge].
  - right. subst start. lia.
  - exfalso. subst start. lia.
Qed.

Lemma trimStart_length (s : jsstring) : strlen (trimStart s) <= strlen s.
Proof.
  unfold strlen. induction s as [|x s IH]; simpl; [lia|].
  destruct (is_trim_unit x); simpl length; lia.
Qed.

Lemma trim_length (s : jsstring) : strlen (trim s) <= strlen s.
Proof.
  unfold trim, trimEnd.
  pose proof (trimStart_length (rev (trimStart s))) as H1.
  pose proof (trimStart_length s) as H2.
  unfold strlen in *. rewrite length_rev in *. lia.
Qed.

Lemma slice_length (s : jsstring) (start end_ : Z) :
  0 <= start -> 0 <= end_ ->
  strlen (slice s start end_) <= Z.max (end_ - start) 0.
Proof.
  intros Hs He. unfold slice, clamp_index.
  destruct (Z.ltb_spec start 0); [lia|].
  destruct (Z.ltb_spec end_ 0); [lia|].
  unfold strlen. rewrite length_firstn. lia.
Qed.

End StringFacts.

(** ** The chunker *)

Section ChunkerFacts.

Variable text : jsstring.

(** The boundary adjustment never moves the end backwards, and moves it
    forwards by at most 50. *)
Lemma adjust_end_range (endIndex : Z) :
  endIndex <= adjust_end text endIndex <= endIndex + 50.
Proof.
  unfold adjust_end.
  destruct (Z.ltb_spec endIndex (strlen text)); [|lia].
  cbv zeta.
  destruct (indexOf_range text LF endIndex) as [Hn|Hn];
    destruct (indexOf_range text IDEOGRAPHIC_FULL_STOP endIndex) as [Hp|Hp];
    repeat match goal with
           | |- context [Z.eqb ?a ?b] => destruct (Z.eqb_spec a b)
           | |- context [Z.ltb ?a ?b] => destruct (Z.ltb_spec a b)
           end; simpl; lia.
Qed.

Variables chunkSize overlap : Z.
Hypothesis overlap_bounds : 0 <= overlap < chunkSize.

(** One iteration, from a non-negative start: the start advances and the
    chunk is at most [chunkSize + 50] long. *)
Lemma chunk_step_progress (startIndex : Z) :
  0 <= startIndex ->
  startIndex < snd (chunk_step text chunkSize overlap startIndex)
  /\ strlen (fst (chunk_step text chunkSize overlap startIndex))
     <= chunkSize + 50.
Proof.
  intros Hs. unfold chunk_step. cbv zeta. simpl fst. simpl snd.
  pose proof (adjust_end_range (startIndex + chunkSize)) as Ha.
  set (endIndex := adjust_end text (startIndex + chunkSize)) in *.
  pose proof (trim_length (slice text startIndex endIndex)) as Ht.
  pose proof (slice_length text startIndex endIndex Hs ltac:(lia)) as Hl.
  split; [|lia].
  destruct (Z.leb_spec (endIndex - overlap)
              (strlen (trim (slice text startIndex endIndex)) - chunkSize));
    lia.
Qed.

Lemma chunk_loop_unfold (fuel : nat) (startIndex : Z) :
  chunk_loop (S fuel) text chunkSize overlap startIndex
  = if startIndex <? strlen text then
      option_map
        (cons (startIndex,
               fst (chunk_step text chunkSize overlap startIndex)))
        (chunk_loop fuel text chunkSize overlap
           (snd (chunk_step text chunkSize overlap startIndex)))
    else Some [].
Proof. reflexivity. Qed.

(** The loop returns as soon as the fuel covers the units left after the
    start; its starts increase and stay at or above the first one. *)
Lemma chunk_loop_total (fuel : nat) :
  forall startIndex,
    0 <= startIndex ->
    strlen text - startIndex <= Z.of_nat fuel ->
    exists trace,
      chunk_loop fuel text chunkSize overlap startIndex = Some trace
      /\ Sorted Z.lt (map fst trace)
      /\ Forall (fun s => startIndex <= s) (map fst trace)
      /\ Forall (fun ch => strlen ch <= chunkSize + 50) (map snd trace).
Proof.
  induction fuel as [|fuel IH]; intros startIndex Hs Hfuel.
  - exists []. simpl.
    destruct (Z.ltb_spec startIndex (strlen text)); [lia|].
    repeat split; constructor.
  - rewrite chunk_loop_unfold.
    destruct (Z.ltb_spec startIndex (strlen text)) as [Hlt|Hge].
    + pose proof (chunk_step_progress startIndex Hs) as [Hadv Hlen].
      set (chunk := fst (chunk_step text chunkSize overlap startIndex)) in *.
      set (next := snd (chunk_step text chunkSize overlap startIndex)) in *.
      destruct (IH next) as (trace & Hrun & Hsorted & Hlow & Hsize);
        [lia|lia|].
      exists ((startIndex, chunk) :: trace). rewrite Hrun. simpl.
      repeat split.
      * constructor; [assumption|].
        destruct trace as [|[s ch] trace]; simpl; constructor.
        inversion Hlow; subst. simpl in *. lia.
      * constructor; [lia|].
        eapply List.Forall_impl; [|exact Hlow]. simpl. intros; lia.
      * constructor; assumption.
    + exists []. repeat split; constructor.
Qed.

End ChunkerFacts.

(** The filter keeps only elements of the list it is given. *)
Lemma Forall_filter_keep (P : jsstring -> Prop) (l : list jsstring) :
  Forall P l -> Forall P (List.filter keep l).
Proof.
  induction 1 as [|x l Hx Hl IH]; simpl; [constructor|].
  destruct (keep x); [constructor|]; assumption.
Qed.

(** C1.  For every text and every chunk size and overlap with
    [0 <= overlap < chunkSize], [chunkText] terminates (any fuel of at least
    [text.length] iterations is enough) and the start offsets of the
    successive chunks are strictly increasing. *)
Theorem chunkText_terminates_with_increasing_starts
        (text : jsstring) (chunkSize overlap : Z) (fuel : nat) :
  0 <= overlap < chunkSize ->
  (length text <= fuel)%nat ->
  exists starts chunks,
    start_offsets fuel text chunkSize overlap = Some starts
    /\ chunkText fuel text chunkSize overlap = Some chunks
    /\ Sorted Z.lt starts.
Proof.
  intros Hb Hfuel.
  destruct (chunk_loop_total text chunkSize overlap Hb fuel 0)
    as (trace & Hrun & Hsorted & _ & _); [lia|unfold strlen; lia|].
  exists (map fst trace), (List.filter keep (map snd trace)).
  unfold start_offsets, chunkText. rewrite Hrun. simpl. auto.
Qed.

Lemma chunkText_terminates_with_increasing_starts_witness :
  exists starts chunks,
    start_offsets 43 (lit "The quick brown fox jumps over the lazy dog") 20 5
    = Some starts
    /\ chunkText 43 (lit "The quick brown fox jumps over the lazy dog") 20 5
       = Some chunks
    /\ Sorted Z.lt starts.
Proof.
  apply (chunkText_terminates_with_increasing_starts
           (lit "The quick brown fox jumps over the lazy dog") 20 5 43).
  - lia.
  - vm_compute. lia.
Defined.

Lemma chunkText_terminates_with_increasing_starts_example :
  start_offsets 43 Demo.fox 20 5 = Some [0; 15; 30].
Proof. vm_compute. reflexivity. Qed.

(** C10.  For every text and every chunk size and overlap with
    [0 <= overlap < chunkSize], [chunkText] returns, and every chunk it
    returns is at most [chunkSize + 50] units long. *)
Theorem chunkText_chunk_length_bound
        (text : jsstring) (chunkSize overlap : Z) (fuel : nat) :
  0 <= overlap < chunkSize ->
  (length text <= fuel)%nat ->
  exists chunks,
    chunkText fuel text chunkSize overlap = Some chunks
    /\ Forall (fun chunk => strlen chunk <= chunkSize + 50) chunks.
Proof.
  intros Hb Hfuel.
  destruct (chunk_loop_total text chunkSize overlap Hb fuel 0)
    as (trace & Hrun & _ & _ & Hsize); [lia|unfold strlen; lia|].
  exists (List.filter keep (map snd trace)).
  unfold chunkText. rewrite Hrun. split; [reflexivity|].
  apply Forall_filter_keep, Hsize.
Qed.

Lemma chunkText_chunk_length_bound_witness :
  exists chunks,
    chunkText 43 Demo.fox 20 5 = Some chunks
    /\ Forall (fun chunk => strlen chunk <= 20 + 50) chunks.
Proof.
  apply (chunkText_chunk_length_bound Demo.fox 20 5 43).
  - lia.
  - vm_compute. lia.
Defined.

(** C6.  Whatever the text, the chunk size and the overlap, every chunk
    [chunkText] returns is longer than the minimum-length threshold (10);
    and with [0 <= overlap < chunkSize] it does return. *)
Theorem chunkText_chunks_above_threshold
        (text : jsstring) (chunkSize overlap : Z) :
  (forall fuel chunks,
      chunkText fuel text chunkSize overlap = Some chunks ->
      Forall (fun chunk => MIN_CHUNK_LENGTH < strlen chunk) chunks)
  /\ (0 <= overlap < chunkSize ->
      exists chunks,
        chunkText (length text) text chunkSize overlap = Some chunks
        /\ Forall (fun chunk => MIN_CHUNK_LENGTH < strlen chunk) chunks).
Proof.
  assert (Hall : forall fuel chunks,
             chunkText fuel text chunkSize overlap = Some chunks ->
             Forall (fun chunk => MIN_CHUNK_LENGTH < strlen chunk) chunks).
  { intros fuel chunks. unfold chunkText.
    destruct (chunk_loop fuel text chunkSize overlap 0) as [trace|];
      simpl; [|discriminate].
    intros [= <-]. apply List.Forall_forall. intros chunk Hin.
    apply List.filter_In in Hin as [_ Hkeep].
    unfold keep in Hkeep. now apply Z.ltb_lt in Hkeep. }
  split; [exact Hall|].
  intros Hb.
  destruct (chunk_loop_total text chunkSize overlap Hb (length text) 0)
    as (trace & Hrun & _); [lia|unfold strlen; lia|].
  exists (List.filter keep (map snd trace)).
  assert (Hret : chunkText (length text) text chunkSize overlap
                 = Some (List.filter keep (map snd trace))).
  { unfold chunkText. now rewrite Hrun. }
  split; [exact Hret|]. exact (Hall _ _ Hret).
Qed.

Lemma chunkText_chunks_above_threshold_witness :
  Forall (fun chunk => MIN_CHUNK_LENGTH < strlen chunk)
         [lit "The quick brown fox"; lit "fox jumps over the"; lit "the lazy dog"].
Proof.
  apply (proj1 (chunkText_chunks_above_threshold Demo.fox 20 5) 43%nat).
  vm_compute. reflexivity.
Defined.

(** Outside [0 <= overlap < chunkSize] the loop need not advance: with
    [overlap = chunkSize = 5] and a chunk that trimming shortened, the start
    stays at 0 and no amount of fuel is enough. *)
Lemma chunk_loop_can_diverge (fuel : nat) :
  chunk_loop fuel Demo.padded 5 5 0 = None.
Proof.
  induction fuel as [|fuel IH]; [reflexivity|].
  rewrite chunk_loop_unfold.
  replace (snd (chunk_step Demo.padded 5 5 0)) with 0
    by (vm_compute; reflexivity).
  rewrite IH. reflexivity.
Qed.

(** A fragment of ten units is dropped: only the first chunk survives. *)
Lemma chunkText_drops_short_fragment :
  chunkText 100 (lit "0123456789abcdefghij") 15 5
  = Some [lit "0123456789abcde"].
Proof. vm_compute. reflexivity. Qed.

(** ** [indexOf] finds the first occurrence *)

Section IndexOfFacts.

Variable c : unit16.

Lemma find_from_spec (s : jsstring) (i : Z) :
  (find_from c s i = -1 /\ forall n, nth_error s n <> Some c)
  \/ (exists n, find_from c s i = i + Z.of_nat n
                /\ nth_error s n = Some c
                /\ forall m, (m < n)%nat -> nth_error s m <> Some c).
Proof.
  revert i. induction s as [|x s IH]; intros i; simpl.
  - left. split; [reflexivity|]. intros [|n]; discriminate.
  - destruct (N.eqb_spec x c) as [->|Hne].
    + right. exists 0%nat. repeat split; [lia|]. intros m Hm. lia.
    + destruct (IH (i + 1)) as [[Hr Hno]|(n & Hr & Hn & Hfirst)].
      * left. split; [exact Hr|].
        intros [|n]; simpl; [congruence|apply Hno].
      * right. exists (S n). repeat split; [lia|exact Hn|].
        intros [|m] Hm; simpl; [congruence|apply Hfirst; lia].
Qed.

Lemma unit_at_skipn (text : jsstring) (a : Z) (n : nat) :
  0 <= a ->
  nth_error (skipn (Z.to_nat a) text) n = unit_at text (a + Z.of_nat n).
Proof.
  intros Ha. unfold unit_at.
  destruct (Z.ltb_spec (a + Z.of_nat n) 0); [lia|].
  rewrite List.nth_error_skipn. f_equal. lia.
Qed.

Lemma indexOf_spec (text : jsstring) (from : Z) :
  (indexOf text c from = -1 /\ absent_from text c from)
  \/ first_at text c from (indexOf text c from).
Proof.
  unfold indexOf, absent_from, first_at.
  pose proof (strlen_nonneg text) as Hlen.
  destruct (Z_lt_le_dec (Z.max from 0) (strlen text)) as [Hin|Hout].
  - replace (Z.min (Z.max from 0) (strlen text)) with (Z.max from 0) by lia.
    set (a := Z.max from 0) in *.
    assert (Ha : 0 <= a) by (subst a; lia).
    destruct (find_from_spec (skipn (Z.to_nat a) text) a)
      as [[Hr Hno]|(n & Hr & Hn & Hfirst)].
    + left. split; [exact Hr|]. intros k Hk.
      replace k with (a + Z.of_nat (Z.to_nat (k - a))) by lia.
      rewrite <- unit_at_skipn by exact Ha. apply Hno.
    + right. rewrite Hr. rewrite unit_at_skipn in Hn by exact Ha.
      repeat split; [lia| |exact Hn|].
      * unfold unit_at in Hn.
        destruct (Z.ltb_spec (a + Z.of_nat n) 0); [discriminate|].
        assert (Hsome : nth_error text (Z.to_nat (a + Z.of_nat n)) <> None)
          by congruence.
        apply List.nth_error_Some in Hsome. unfold strlen. lia.
      * intros k Hk.
        replace k with (a + Z.of_nat (Z.to_nat (k - a))) by lia.
        rewrite <- unit_at_skipn by exact Ha. apply Hfirst. lia.
  - left. split.
    + replace (Z.min (Z.max from 0) (strlen text)) with (strlen text) by lia.
      unfold strlen. rewrite Nat2Z.id, List.skipn_all. reflexivity.
    + intros k Hk. lia.
Qed.

Lemma first_at_unique (text : jsstring) (from p q : Z) :
  first_at text c from p -> first_at text c from q -> p = q.
Proof.
  intros (Hp & Hpc & Hpf) (Hq & Hqc & Hqf).
  destruct (Z.lt_trichotomy p q) as [Hlt|[Heq|Hgt]]; [|exact Heq|].
  - exfalso. apply (Hqf p); [lia|exact Hpc].
  - exfalso. apply (Hpf q); [lia|exact Hqc].
Qed.

Lemma indexOf_first (text : jsstring) (from p : Z) :
  first_at text c from p -> indexOf text c from = p.
Proof.
  intros Hp. destruct (indexOf_spec text from) as [[_ Habs]|Hfirst].
  - exfalso. destruct Hp as (Hr & Hc & _). exact (Habs p Hr Hc).
  - exact (first_at_unique _ _ _ _ Hfirst Hp).
Qed.

Lemma indexOf_absent (text : jsstring) (from : Z) :
  absent_from text c from -> indexOf text c from = -1.
Proof.
  intros Habs. destruct (indexOf_spec text from) as [[Hr _]|Hfirst];
    [exact Hr|].
  exfalso. destruct Hfirst as (Hr & Hc & _). exact (Habs _ Hr Hc).
Qed.

(** Either nothing is found within the window, or the first occurrence
    lies in it. *)
Lemma indexOf_window (text : jsstring) (from : Z) :
  (forall p, first_at text c from p -> LOOKAHEAD <= p - from) ->
  negb (indexOf text c from =? -1) && (indexOf text c from - from <? 50)
  = false.
Proof.
  intros Hfar. destruct (indexOf_spec text from) as [[Hr _]|Hfirst].
  - rewrite Hr. reflexivity.
  - specialize (Hfar _ Hfirst). unfold LOOKAHEAD in Hfar.
    apply andb_false_iff. right. apply Z.ltb_ge. lia.
Qed.

End IndexOfFacts.

(** C4, as the code has it.  For every text, chunk size, overlap and start,
    with [nominal = startIndex + chunkSize], the chunk pushed is the trimmed
    slice from the start to the adjusted end, where: if the first line feed
    at or after the nominal end is fewer than 50 units past it, the end is
    the index of that line feed (even when a full stop is nearer); otherwise
    if the first ideographic full stop at or after the nominal end is fewer
    than 50 units past it, the end is just after that full stop; otherwise,
    and whenever the nominal end is not inside the text, the end is the
    nominal end. *)
Theorem chunk_cut_line_feed_first
        (text : jsstring) (chunkSize overlap startIndex : Z) :
  let nominal := startIndex + chunkSize in
  fst (chunk_step text chunkSize overlap startIndex)
  = trim (slice text startIndex (adjust_end text nominal))
  /\ (forall p,
         first_at text LF nominal p -> p - nominal < LOOKAHEAD ->
         adjust_end text nominal = p)
  /\ (forall q,
         (forall p, first_at text LF nominal p -> LOOKAHEAD <= p - nominal) ->
         first_at text IDEOGRAPHIC_FULL_STOP nominal q ->
         q - nominal < LOOKAHEAD ->
         adjust_end text nominal = q + 1)
  /\ ((forall p, first_at text LF nominal p -> LOOKAHEAD <= p - nominal) ->
      (forall q, first_at text IDEOGRAPHIC_FULL_STOP nominal q ->
                 LOOKAHEAD <= q - nominal) ->
      adjust_end text nominal = nominal)
  /\ (strlen text <= nominal -> adjust_end text nominal = nominal).
Proof.
  intros nominal. unfold LOOKAHEAD.
  split; [reflexivity|].
  split; [|split; [|split]].
  - intros p Hp Hnear.
    assert (Hin : nominal < strlen text) by (destruct Hp as (Hr & _); lia).
    unfold adjust_end. apply Z.ltb_lt in Hin. rewrite Hin. cbv zeta.
    rewrite (indexOf_first LF text nominal p Hp).
    destruct Hp as (Hr & _).
    replace (p =? -1) with false by (symmetry; apply Z.eqb_neq; lia).
    replace (p - nominal <? 50) with true by (symmetry; apply Z.ltb_lt; lia).
    reflexivity.
  - intros q Hfar Hq Hnear.
    assert (Hin : nominal < strlen text) by (destruct Hq as (Hr & _); lia).
    unfold adjust_end. apply Z.ltb_lt in Hin. rewrite Hin. cbv zeta.
    rewrite (indexOf_window LF text nominal Hfar).
    rewrite (indexOf_first IDEOGRAPHIC_FULL_STOP text nominal q Hq).
    destruct Hq as (Hr & _).
    replace (q =? -1) with false by (symmetry; apply Z.eqb_neq; lia).
    replace (q - nominal <? 50) with true by (symmetry; apply Z.ltb_lt; lia).
    reflexivity.
  - intros Hfar_lf Hfar_stop. unfold adjust_end.
    rewrite (indexOf_window LF text nominal Hfar_lf).
    rewrite (indexOf_window IDEOGRAPHIC_FULL_STOP text nominal Hfar_stop).
    destruct (nominal <? strlen text); reflexivity.
  - intros Hout. unfold adjust_end.
    apply Z.ltb_ge in Hout. rewrite Hout. reflexivity.
Qed.

Lemma chunk_cut_line_feed_first_witness :
  first_at Demo.stop_then_newline LF (0 + 2) 5
  /\ adjust_end Demo.stop_then_newline (0 + 2) = 5.
Proof.
  assert (H : first_at Demo.stop_then_newline LF (0 + 2) 5).
  { split; [|split].
    - vm_compute. split; [discriminate|reflexivity].
    - vm_compute. reflexivity.
    - intros k Hk.
      assert (Hcases : k = 2 \/ k = 3 \/ k = 4) by lia.
      destruct Hcases as [-> | [-> | ->]]; vm_compute; discriminate. }
  split; [exact H|].
  apply (proj1 (proj2 (chunk_cut_line_feed_first
                         Demo.stop_then_newline 2 0 0)) 5 H).
  vm_compute. reflexivity.
Defined.

(** C4 as worded fails: in "ab。cd\nefgh" with chunk size 2 the nearest
    boundary past the nominal end 2 is the full stop at index 2, yet the
    code cuts at the line feed at index 5. *)
Lemma chunk_cut_not_nearest_boundary :
  spec_nearest_boundary Demo.stop_then_newline (0 + 2) = Some 2
  /\ adjust_end Demo.stop_then_newline (0 + 2) = 5
  /\ ~ spec_cuts_at_nearest Demo.stop_then_newline 2 0.
Proof.
  split; [vm_compute; reflexivity|].
  split; [vm_compute; reflexivity|].
  intros Hspec.
  destruct (Hspec 2) as [H|H]; [vm_compute; reflexivity| |];
    vm_compute in H; discriminate.
Qed.

(** ** Truthiness, equality and the safety net *)

Section AnswerFacts.

Lemma streq_eq (a b : jsstring) : streq a b = true <-> a = b.
Proof.
  revert b. induction a as [|x a IH]; intros [|y b]; simpl;
    try (split; [discriminate|congruence]); try tauto.
  rewrite andb_true_iff, N.eqb_eq, IH. split.
  - intros [-> ->]. reflexivity.
  - intros [= -> ->]. auto.
Qed.

Lemma truthy_nonempty (s : jsstring) : truthy s = true <-> s <> [].
Proof. destruct s; simpl; split; congruence. Qed.

Lemma truthy_app_LF (a b : jsstring) : truthy (a ++ b ++ [LF]) = true.
Proof. destruct a; [destruct b|]; reflexivity. Qed.

(** The safety net passes a usable answer through and replaces anything
    else by the apology. *)
Lemma safety_net_usable (s : jsstring) :
  s <> [] -> s <> lit "undefined" -> Agent.safety_net (Some s) = s.
Proof.
  intros Hne Hund. unfold Agent.safety_net.
  apply truthy_nonempty in Hne. rewrite Hne. simpl.
  destruct (streq s (lit "undefined")) eqn:E; [|reflexivity].
  apply streq_eq in E. contradiction.
Qed.

Lemma safety_net_unusable (t : option jsstring) :
  t = None \/ t = Some [] \/ t = Some (lit "undefined") ->
  Agent.safety_net t = Agent.APOLOGY.
Proof. intros [->|[->| ->]]; reflexivity. Qed.

Lemma safety_net_nonempty (t : option jsstring) :
  Agent.safety_net t <> [] /\ Agent.safety_net t <> lit "undefined".
Proof.
  unfold Agent.safety_net. destruct t as [s|]; [|split; discriminate].
  destruct (truthy s) eqn:Ht; simpl; [|split; discriminate].
  destruct (streq s (lit "undefined")) eqn:E; [split; discriminate|].
  split.
  - now apply truthy_nonempty.
  - intros ->. vm_compute in E. discriminate.
Qed.

(** Some tool output was collected exactly when the transcript holds a
    tool-result part. *)
Lemma fold_add_part_truthy (parts : list Part) (acc : jsstring) :
  truthy (fold_left Agent.add_part parts acc)
  = truthy acc || existsb is_tool_result parts.
Proof.
  revert acc. induction parts as [|part parts IH]; intros acc; simpl.
  - now rewrite orb_false_r.
  - rewrite IH. unfold Agent.add_part, is_tool_result.
    destruct (streq (part_type part) (lit "tool-result")); simpl.
    + rewrite truthy_app_LF. now rewrite orb_true_r.
    + reflexivity.
Qed.

Lemma fold_add_step_truthy (steps : list Step) (acc : jsstring) :
  truthy (fold_left Agent.add_step steps acc)
  = truthy acc || has_tool_result steps.
Proof.
  revert acc. induction steps as [|step steps IH]; intros acc; simpl.
  - now rewrite orb_false_r.
  - rewrite IH. unfold Agent.add_step.
    destruct (content step) as [parts|]; simpl.
    + rewrite fold_add_part_truthy. now rewrite orb_assoc.
    + reflexivity.
Qed.

Lemma collect_tool_output_truthy (steps : list Step) :
  truthy (Agent.collect_tool_output steps) = has_tool_result steps.
Proof. unfold Agent.collect_tool_output. apply fold_add_step_truthy. Qed.

End AnswerFacts.

(** ** The agent controller *)

Section AgentFacts.

Import Agent.

Variable w : World.

(** The handler on a body whose prompt is missing or empty. *)
Lemma chatWithAgent_falsy_prompt (req : Request) (b : ReqBody) :
  req_body req = Some b ->
  truthy_opt (prompt b) = false ->
  chatWithAgent req
  = Ret {| status := 400; res_body := ErrorBody (lit "Prompt is required") |}.
Proof.
  intros Hb Hp. unfold chatWithAgent, chat_body. rewrite Hb, Hp. reflexivity.
Qed.

(** The handler on a validated request, call by call. *)
Lemma run_chatWithAgent_valid (req : Request) (b : ReqBody) (p : jsstring) :
  req_body req = Some b ->
  prompt b = Some p ->
  p <> [] ->
  run w (chatWithAgent req)
  = let first := EvGenerateText (primary_request p) in
    let failed := {| status := 500;
                     res_body := ErrorBody (lit "Internal Server Error") |} in
    match w_generateText w [] (primary_request p) with
    | Threw _ => ([first], Ok failed)
    | Ok result =>
        if truthy_opt (gr_text result) then
          ([first],
           Ok {| status := 200;
                 res_body := ChatBody p (safety_net (gr_text result)) |})
        else if has_tool_result (gr_steps result) then
          let second :=
            fallback_request p (collect_tool_output (gr_steps result)) in
          match w_generateText w [first] second with
          | Threw _ => ([first; EvGenerateText second], Ok failed)
          | Ok summary =>
              ([first; EvGenerateText second],
               Ok {| status := 200;
                     res_body := ChatBody p (safety_net (gr_text summary)) |})
          end
        else
          ([first], Ok {| status := 200; res_body := ChatBody p APOLOGY |})
    end.
Proof.
  intros Hb Hp Hne. apply truthy_nonempty in Hne.
  unfold chatWithAgent, chat_body, run. rewrite Hb, Hp.
  simpl truthy_opt. rewrite Hne. simpl negb. cbv iota. simpl to_string.
  cbv zeta. simpl.
  destruct (w_generateText w [] (primary_request p)) as [result|e];
    [|reflexivity].
  simpl. unfold extract_answer.
  rewrite <- collect_tool_output_truthy.
  destruct (truthy_opt (gr_text result)) eqn:Htext; simpl; [reflexivity|].
  destruct (truthy (collect_tool_output (gr_steps result))) eqn:Hraw; simpl.
  - destruct (w_generateText w _ _) as [summary|e]; reflexivity.
  - rewrite safety_net_unusable; [reflexivity|].
    destruct (gr_text result) as [[|x s]|]; simpl in Htext;
      [right; left; reflexivity|discriminate|left; reflexivity].
Qed.

End AgentFacts.

(** C8.  For every request whose body has a missing or empty prompt, the
    handler is the bare 400 response [{error: 'Prompt is required'}]: it
    contains no external call, and a run against any world makes none. *)
Theorem chat_rejects_missing_or_empty_prompt
        (w : World) (req : Agent.Request) (b : Agent.ReqBody) :
  Agent.req_body req = Some b ->
  Agent.prompt b = None \/ Agent.prompt b = Some [] ->
  Agent.chatWithAgent req
  = Ret {| Agent.status := 400;
           Agent.res_body := Agent.ErrorBody (lit "Prompt is required") |}
  /\ run w (Agent.chatWithAgent req)
     = ([], Ok {| Agent.status := 400;
                  Agent.res_body := Agent.ErrorBody (lit "Prompt is required") |}).
Proof.
  intros Hb Hp.
  assert (Hfalsy : truthy_opt (Agent.prompt b) = false)
    by (destruct Hp as [-> | ->]; reflexivity).
  rewrite (chatWithAgent_falsy_prompt req b Hb Hfalsy).
  split; reflexivity.
Qed.

Lemma chat_rejects_missing_or_empty_prompt_witness :
  run Demo.polishing_world (Agent.chatWithAgent Demo.empty_prompt)
  = ([], Ok {| Agent.status := 400;
               Agent.res_body := Agent.ErrorBody (lit "Prompt is required") |}).
Proof.
  apply (chat_rejects_missing_or_empty_prompt
           Demo.polishing_world Demo.empty_prompt
           {| Agent.prompt := Some [] |}).
  - reflexivity.
  - right. reflexivity.
Defined.

(** Without a parsed body the destructuring throws and the handler
    answers 500. *)
Lemma chat_without_body :
  run Demo.silent_world (Agent.chatWithAgent Demo.no_body)
  = ([], Ok {| Agent.status := 500;
               Agent.res_body :=
                 Agent.ErrorBody (lit "Internal Server Error") |}).
Proof. reflexivity. Qed.

(** C5.  For every validated request (non-empty prompt) and every world,
    the handler responds, with status 200 or 500, and 200 whenever no model
    call throws; the answer of a 200 response is a non-empty string other
    than 'undefined'; and when every model call yields nothing or the
    literal 'undefined', that answer is the fixed apology. *)
Theorem chat_answer_is_nonempty
        (w : World) (req : Agent.Request) (b : Agent.ReqBody) (p : jsstring) :
  Agent.req_body req = Some b ->
  Agent.prompt b = Some p ->
  p <> [] ->
  exists evs resp,
    run w (Agent.chatWithAgent req) = (evs, Ok resp)
    /\ (Agent.status resp = 200 \/ Agent.status resp = 500)
    /\ (model_never_throws w -> Agent.status resp = 200)
    /\ (Agent.status resp = 200 ->
        exists answer,
          Agent.res_body resp = Agent.ChatBody p answer
          /\ answer <> [] /\ answer <> lit "undefined")
    /\ ((forall history r result,
            w_generateText w history r = Ok result ->
            gr_text result = None \/ gr_text result = Some []
            \/ gr_text result = Some (lit "undefined")) ->
        Agent.status resp = 200 ->
        Agent.res_body resp = Agent.ChatBody p Agent.APOLOGY).
Proof.
  intros Hb Hp Hne.
  rewrite (run_chatWithAgent_valid w req b p Hb Hp Hne). cbv zeta.
  destruct (w_generateText w [] (Agent.primary_request p))
    as [result|e] eqn:Hfirst.
  - destruct (truthy_opt (gr_text result)) eqn:Htext.
    + eexists _, _. split; [reflexivity|]. simpl.
      repeat split; auto.
      * intros _. eexists. split; [reflexivity|]. apply safety_net_nonempty.
      * intros Hnothing _. f_equal.
        apply safety_net_unusable. exact (Hnothing _ _ _ Hfirst).
    + destruct (has_tool_result (gr_steps result)).
      * destruct (w_generateText w [EvGenerateText (Agent.primary_request p)] _)
          as [summary|e] eqn:Hsecond.
        -- eexists _, _. split; [reflexivity|]. simpl.
           repeat split; auto.
           ++ intros _. eexists. split; [reflexivity|].
              apply safety_net_nonempty.
           ++ intros Hnothing _. f_equal.
              apply safety_net_unusable. exact (Hnothing _ _ _ Hsecond).
        -- eexists _, _. split; [reflexivity|]. simpl.
           repeat split; auto; try discriminate.
           intros Hnever. destruct (Hnever
             [EvGenerateText (Agent.primary_request p)]
             (Agent.fallback_request p
                (Agent.collect_tool_output (gr_steps result)))) as [r Hr].
           congruence.
      * eexists _, _. split; [reflexivity|]. simpl.
        repeat split; auto.
        intros _. eexists. split; [reflexivity|].
        split; [discriminate|]. intros H. vm_compute in H. discriminate.
  - eexists _, _. split; [reflexivity|]. simpl.
    repeat split; auto; try discriminate.
    intros Hnever. destruct (Hnever [] (Agent.primary_request p)) as [r Hr].
    congruence.
Qed.

Lemma chat_answer_is_nonempty_witness :
  exists evs resp,
    run Demo.silent_world (Agent.chatWithAgent Demo.hello) = (evs, Ok resp)
    /\ Agent.res_body resp = Agent.ChatBody (lit "hello") Agent.APOLOGY.
Proof.
  destruct (chat_answer_is_nonempty
              Demo.silent_world Demo.hello
              {| Agent.prompt := Some (lit "hello") |} (lit "hello")
              eq_refl eq_refl ltac:(discriminate))
    as (evs & resp & Hrun & _ & Hok & _ & Hapology).
  exists evs, resp. split; [exact Hrun|].
  apply Hapology.
  - intros history r result [= <-]. right. left. reflexivity.
  - apply Hok. intros history r. eexists. reflexivity.
Defined.

(** C2, as the code has it.  For every validated request whose primary
    call returns without text: when the transcript holds at least one
    tool-result part, exactly one more model call is made, without tools,
    and when it returns its output becomes the answer, or the apology if the
    output is missing, empty or the literal 'undefined' (500 if it throws);
    when the transcript holds no tool-result part, no further call is made
    and the answer is the apology. *)
Theorem fallback_runs_once_given_tool_output
        (w : World) (req : Agent.Request) (b : Agent.ReqBody) (p : jsstring)
        (result : GenResult) :
  Agent.req_body req = Some b ->
  Agent.prompt b = Some p ->
  p <> [] ->
  w_generateText w [] (Agent.primary_request p) = Ok result ->
  truthy_opt (gr_text result) = false ->
  let first := EvGenerateText (Agent.primary_request p) in
  let second :=
    Agent.fallback_request p (Agent.collect_tool_output (gr_steps result)) in
  (has_tool_result (gr_steps result) = true ->
   fst (run w (Agent.chatWithAgent req)) = [first; EvGenerateText second]
   /\ model_calls (fst (run w (Agent.chatWithAgent req))) = 2%nat
   /\ g_tools second = []
   /\ (forall summary,
          w_generateText w [first] second = Ok summary ->
          exists answer,
            snd (run w (Agent.chatWithAgent req))
            = Ok {| Agent.status := 200;
                    Agent.res_body := Agent.ChatBody p answer |}
            /\ (forall s, gr_text summary = Some s -> s <> [] ->
                          s <> lit "undefined" -> answer = s)
            /\ (gr_text summary = None \/ gr_text summary = Some []
                \/ gr_text summary = Some (lit "undefined") ->
                answer = Agent.APOLOGY))
   /\ (forall e,
          w_generateText w [first] second = Threw e ->
          snd (run w (Agent.chatWithAgent req))
          = Ok {| Agent.status := 500;
                  Agent.res_body :=
                    Agent.ErrorBody (lit "Internal Server Error") |}))
  /\ (has_tool_result (gr_steps result) = false ->
      run w (Agent.chatWithAgent req)
      = ([first], Ok {| Agent.status := 200;
                        Agent.res_body := Agent.ChatBody p Agent.APOLOGY |})).
Proof.
  intros Hb Hp Hne Hfirst Htext first second.
  rewrite (run_chatWithAgent_valid w req b p Hb Hp Hne). cbv zeta.
  rewrite Hfirst, Htext. fold first. fold second.
  split; intros Htool; rewrite Htool; [|reflexivity].
  destruct (w_generateText w [first] second) as [summary|e] eqn:Hsecond;
    simpl; (split; [reflexivity|]); (split; [reflexivity|]);
    (split; [reflexivity|]); split; try discriminate.
  - intros summary' [= <-]. eexists. split; [reflexivity|]. split.
    + intros s Hs Hs1 Hs2. rewrite Hs. now apply safety_net_usable.
    + apply safety_net_unusable.
  - reflexivity.
Qed.

Lemma fallback_runs_once_given_tool_output_witness :
  model_calls (fst (run Demo.polishing_world (Agent.chatWithAgent Demo.hello)))
  = 2%nat.
Proof.
  apply (fallback_runs_once_given_tool_output
           Demo.polishing_world Demo.hello
           {| Agent.prompt := Some (lit "hello") |} (lit "hello")
           {| gr_text := Some []; gr_steps := [Demo.tool_step] |}
           eq_refl eq_refl ltac:(discriminate) eq_refl eq_refl).
  vm_compute. reflexivity.
Defined.

Lemma fallback_answer_example :
  snd (run Demo.polishing_world (Agent.chatWithAgent Demo.hello))
  = Ok {| Agent.status := 200;
          Agent.res_body :=
            Agent.ChatBody (lit "hello") (lit "We use Next.js [a.md]") |}.
Proof. vm_compute. reflexivity. Qed.

(** C2 as worded fails: a primary call that returns no text and no tool
    result is followed by no further model call. *)
Lemma fallback_skipped_without_tool_output :
  model_calls (fst (run Demo.silent_world (Agent.chatWithAgent Demo.hello)))
  = 1%nat
  /\ ~ spec_fallback_always_runs Demo.silent_world Demo.hello.
Proof.
  split; [vm_compute; reflexivity|].
  intros Hspec.
  specialize (Hspec {| Agent.prompt := Some (lit "hello") |} (lit "hello")
                    {| gr_text := Some []; gr_steps := [] |}
                    eq_refl eq_refl eq_refl eq_refl eq_refl).
  vm_compute in Hspec. discriminate.
Qed.

(** ** The knowledge retriever *)

Section RagFacts.

Import Rag.

Variable w : World.

(** The retriever, call by call. *)
Lemma run_retrieveKnowledge (q : jsstring) :
  run w (retrieveKnowledge q)
  = match w_embed w [] (embed_request q) with
    | Threw e => ([EvEmbed (embed_request q)], Threw e)
    | Ok v =>
        match w_query w [EvEmbed (embed_request q)] (query_request v) with
        | Threw e =>
            ([EvEmbed (embed_request q); EvQuery (query_request v)], Threw e)
        | Ok response =>
            ([EvEmbed (embed_request q); EvQuery (query_request v)],
             match matches response with
             | None => Ok NO_MATCH
             | Some [] => Ok NO_MATCH
             | Some (m :: ms) => format_context (m :: ms)
             end)
        end
    end.
Proof.
  unfold retrieveKnowledge, run, embed_request, query_request. simpl.
  destruct (w_embed w [] _) as [v|e]; simpl; [|reflexivity].
  destruct (w_query w _ _) as [response|e]; simpl; [|reflexivity].
  destruct (matches response) as [[|m ms]|]; simpl; try reflexivity.
  destruct (format_context (m :: ms)); reflexivity.
Qed.

Lemma map_blocks_length (ms : list Match) (blocks : list jsstring) :
  map_blocks ms = Ok blocks -> length blocks = length ms.
Proof.
  revert blocks. induction ms as [|m ms IH]; intros blocks; simpl.
  - intros [= <-]. reflexivity.
  - destruct (block m) as [b|e]; [|discriminate].
    destruct (map_blocks ms) as [bs|e]; [|discriminate].
    intros [= <-]. simpl. f_equal. now apply IH.
Qed.

(** The label of a block is the stored source, or 'unknown document'. *)
Lemma sourceName_label (m : Match) (md : MatchMetadata) :
  match_metadata m = Some md -> sourceName md = spec_label m.
Proof.
  intros Hmd. unfold sourceName, spec_label, stored_source. rewrite Hmd.
  destruct (mm_source md) as [[|x s]|]; reflexivity.
Qed.

Lemma block_spec (m : Match) (t : jsstring) :
  stored_text m = Some t -> block m = Ok (spec_block (spec_label m) t).
Proof.
  unfold stored_text, block. destruct (match_metadata m) as [md|] eqn:Hmd;
    [|discriminate].
  intros Ht. rewrite Ht, (sourceName_label m md Hmd). reflexivity.
Qed.

Lemma map_blocks_spec (ms : list Match) (texts : list jsstring) :
  Forall2 (fun m t => stored_text m = Some t) ms texts ->
  map_blocks ms
  = Ok (zip_with (fun m t => spec_block (spec_label m) t) ms texts).
Proof.
  induction 1 as [|m t ms texts Ht _ IH]; simpl; [reflexivity|].
  now rewrite (block_spec m t Ht), IH.
Qed.

End RagFacts.

(** C3.  Against every index that honours [topK], for every query: the
    only index query made asks for [topK = 2] in the fixed namespace; a
    returned context is either the sentinel or the join of one block per
    match of at most two matches; and when the index answers with no
    [matches] field or an empty one, the sentinel string is returned, not an
    exception. *)
Theorem retrieveKnowledge_at_most_two_matches (w : World) (q : jsstring) :
  honours_topK w ->
  (forall req,
      In (EvQuery req) (fst (run w (Rag.retrieveKnowledge q))) ->
      q_topK req = 2%nat /\ q_namespace req = lit "my-company-docs"
      /\ q_includeMetadata req = true)
  /\ (forall s,
         snd (run w (Rag.retrieveKnowledge q)) = Ok s ->
         s = Rag.NO_MATCH
         \/ exists v response ms blocks,
             w_query w [EvEmbed (Rag.embed_request q)] (Rag.query_request v)
             = Ok response
             /\ matches response = Some ms
             /\ (length ms <= 2)%nat
             /\ Rag.map_blocks ms = Ok blocks
             /\ length blocks = length ms
             /\ s = join Rag.SEPARATOR blocks)
  /\ (forall v response,
         w_embed w [] (Rag.embed_request q) = Ok v ->
         w_query w [EvEmbed (Rag.embed_request q)] (Rag.query_request v) = Ok response ->
         matches response = None \/ matches response = Some [] ->
         snd (run w (Rag.retrieveKnowledge q))
         = Ok (lit "No relevant information found in the knowledge base.")).
Proof.
  intros Hcontract. rewrite run_retrieveKnowledge.
  destruct (w_embed w [] (Rag.embed_request q)) as [v|e] eqn:Hembed.
  - destruct (w_query w [EvEmbed (Rag.embed_request q)] (Rag.query_request v))
      as [response|e] eqn:Hquery.
    + simpl. split; [|split].
      * intros req [H|[H|[]]]; [discriminate|]. injection H as <-.
        repeat split.
      * intros s Hs.
        destruct (matches response) as [[|m ms]|] eqn:Hms;
          try (left; congruence).
        right. unfold Rag.format_context in Hs.
        destruct (Rag.map_blocks (m :: ms)) as [blocks|e] eqn:Hblocks;
          [|discriminate].
        injection Hs as <-.
        exists v, response, (m :: ms), blocks.
        repeat split; auto.
        -- exact (Hcontract _ _ _ _ Hquery Hms).
        -- now apply map_blocks_length.
      * intros v' response' [= <-]. rewrite Hquery. intros [= <-].
        intros [-> | ->]; reflexivity.
    + simpl. split; [|split].
      * intros req [H|[H|[]]]; [discriminate|]. injection H as <-.
        repeat split.
      * intros s Hs. discriminate.
      * intros v' response' [= <-]. rewrite Hquery. discriminate.
  - simpl. split; [|split].
    + intros req [H|[]]. discriminate.
    + intros s Hs. discriminate.
    + intros v response. discriminate.
Qed.

Lemma retrieveKnowledge_at_most_two_matches_witness :
  snd (run Demo.silent_world (Rag.retrieveKnowledge (lit "auth")))
  = Ok (lit "No relevant information found in the knowledge base.").
Proof.
  assert (Hcontract : honours_topK Demo.silent_world).
  { intros history req response ms [= <-] [= <-]. simpl. lia. }
  apply (proj2 (proj2 (retrieveKnowledge_at_most_two_matches
                         Demo.silent_world (lit "auth") Hcontract))
               [] {| matches := Some [] |} eq_refl eq_refl).
  right. reflexivity.
Defined.

(** The retriever itself does not truncate: it formats every match the
    index returns. *)
Lemma retrieveKnowledge_formats_every_match :
  exists blocks,
    Rag.map_blocks [Demo.match_a; Demo.match_b; Demo.match_c] = Ok blocks
    /\ length blocks = 3%nat
    /\ snd (run Demo.generous_world (Rag.retrieveKnowledge (lit "auth")))
       = Ok (join Rag.SEPARATOR blocks).
Proof. eexists. vm_compute. repeat split. Qed.

(** C9.  For every non-empty list of matches the index returns with their
    stored text, the retrieved context is, match by match, the block
    [[source: <source>]], a line feed and the text, where the source is the
    stored one, or 'unknown document' when the metadata has none (or an
    empty one), the blocks being joined by the separator made of two line
    feeds, three hyphens and two line feeds. *)
Theorem retrieveKnowledge_labelled_blocks
        (w : World) (q : jsstring) (v : Ingest.embedding)
        (response : QueryResponse) (ms : list Match) (texts : list jsstring) :
  w_embed w [] (Rag.embed_request q) = Ok v ->
  w_query w [EvEmbed (Rag.embed_request q)] (Rag.query_request v) = Ok response ->
  matches response = Some ms ->
  ms <> [] ->
  Forall2 (fun m t => stored_text m = Some t) ms texts ->
  snd (run w (Rag.retrieveKnowledge q))
  = Ok (join Rag.SEPARATOR
          (zip_with (fun m t => spec_block (spec_label m) t) ms texts))
  /\ Rag.SEPARATOR = [10; 10; 45; 45; 45; 10; 10]%N
  /\ length (zip_with (fun m t => spec_block (spec_label m) t) ms texts)
     = length ms.
Proof.
  intros Hembed Hquery Hms Hne Htexts.
  rewrite run_retrieveKnowledge, Hembed, Hquery, Hms. simpl.
  split; [|split].
  - destruct ms as [|m ms]; [contradiction|].
    unfold Rag.format_context.
    now rewrite (map_blocks_spec (m :: ms) texts Htexts).
  - reflexivity.
  - rewrite length_zip_with. apply Forall2_length in Htexts. lia.
Qed.

Lemma retrieveKnowledge_labelled_blocks_witness :
  snd (run Demo.polishing_world (Rag.retrieveKnowledge (lit "auth")))
  = Ok (lit "[source: a.md]" ++ [LF] ++ lit "Next.js App Router"
        ++ [LF; LF] ++ lit "---" ++ [LF; LF]
        ++ lit "[source: unknown document]" ++ [LF] ++ lit "JWT auth").
Proof.
  apply (retrieveKnowledge_labelled_blocks
           Demo.polishing_world (lit "auth") []
           {| matches := Some [Demo.match_a; Demo.match_b] |}
           [Demo.match_a; Demo.match_b]
           [lit "Next.js App Router"; lit "JWT auth"]
           eq_refl eq_refl eq_refl ltac:(discriminate)).
  repeat constructor.
Defined.

(** ** Ingestion records *)

Section IngestFacts.

Import Ingest.

Lemma chunkText_default_total (content : jsstring) :
  exists chunks,
    chunkText (length content) content CHUNK_SIZE CHUNK_OVERLAP = Some chunks.
Proof.
  assert (Hb : 0 <= CHUNK_OVERLAP < CHUNK_SIZE)
    by (unfold CHUNK_OVERLAP, CHUNK_SIZE; lia).
  destruct (chunk_loop_total content CHUNK_SIZE CHUNK_OVERLAP Hb
                             (length content) 0)
    as (trace & Hrun & _); [lia|unfold strlen; lia|].
  eexists. unfold chunkText. rewrite Hrun. reflexivity.
Qed.

(** Chunking the documents always succeeds, and every chunk of a document
    is recorded with the document's name and its position among the
    document's chunks. *)
Lemma allChunks_total (files : list (jsstring * jsstring)) :
  exists all,
    allChunks files = Some all
    /\ forall file content,
        In (file, content) files ->
        exists chunks,
          chunkText (length content) content CHUNK_SIZE CHUNK_OVERLAP
          = Some chunks
          /\ forall i chunk,
              chunks !! i = Some chunk ->
              In {| text := chunk; source := file; chunkIndex := i |} all.
Proof.
  induction files as [|[file content] files (more & Hmore & Hin)].
  - exists []. split; [reflexivity|]. intros file content [].
  - destruct (chunkText_default_total content) as [chunks Hchunks].
    exists (file_chunks file chunks ++ more). simpl.
    rewrite Hchunks, Hmore. split; [reflexivity|].
    intros file' content' [[= <- <-]|Hrest].
    + exists chunks. split; [exact Hchunks|].
      intros i chunk Hi. apply in_or_app. left.
      apply list_elem_of_In. unfold file_chunks.
      exact (elem_of_lookup_imap_2 _ chunks chunk i Hi).
    + destruct (Hin file' content' Hrest) as (chunks' & Hc & Hall).
      exists chunks'. split; [exact Hc|].
      intros i chunk Hi. apply in_or_app. right. exact (Hall i chunk Hi).
Qed.

Lemma map_imap_const {A B C : Type} (g : B -> C) (h : A -> C) (l : list A) :
  forall f : nat -> A -> B,
    (forall i x, g (f i x) = h x) -> map g (imap f l) = map h l.
Proof.
  induction l as [|x l IH]; intros f Hf; simpl; [reflexivity|].
  rewrite Hf. f_equal. apply IH. intros i y. apply Hf.
Qed.

(** The ids do not depend on the embeddings. *)
Lemma vectors_ids (all : list ChunkInfo) (embeddings : list embedding) :
  map id (vectors all embeddings) = map record_id all.
Proof. unfold vectors. now apply map_imap_const. Qed.

Lemma vectors_lookup (all : list ChunkInfo) (embeddings : list embedding)
      (i : nat) (chunkInfo : ChunkInfo) :
  all !! i = Some chunkInfo ->
  vectors all embeddings !! i
  = Some {| id := source chunkInfo ++ lit "-chunk-"
                  ++ of_index (chunkIndex chunkInfo);
            values := nth_error embeddings i;
            metadata := {| md_text := text chunkInfo;
                           md_source := source chunkInfo |} |}.
Proof.
  intros Hi. unfold vectors. rewrite list_lookup_imap, Hi. reflexivity.
Qed.

(** After an upsert the store holds the ids it held and those written. *)
Lemma dom_upsert (records : list IndexRecord) :
  forall store : gmap jsstring IndexRecord,
    dom (upsert store records)
    = dom store ∪ list_to_set (map id records).
Proof.
  unfold upsert.
  induction records as [|r records IH]; intros store; simpl.
  - now rewrite union_empty_r_L.
  - rewrite IH, dom_insert_L.
    rewrite (union_comm_L {[id r]} (dom store)).
    now rewrite <- union_assoc_L.
Qed.

Lemma upsert_same_ids (store : gmap jsstring IndexRecord)
      (records records' : list IndexRecord) :
  map id records' = map id records ->
  dom (upsert (upsert store records) records')
  = dom (upsert store records).
Proof.
  intros Hids. rewrite !dom_upsert, Hids.
  now rewrite <- union_assoc_L, union_idemp_L.
Qed.

End IngestFacts.

(** C7.  For all documents and embeddings, ingestion produces one record
    per chunk; the record of a chunk has the id
    [<source>-chunk-<chunkIndex>] and the metadata [{text, source}] of that
    chunk, where the source is the document's name and the chunk index the
    position of the chunk in its document; ingesting the same documents
    again, whatever the embeddings, yields the same ids in the same order,
    and upserting those records leaves the set and number of ids in the
    index unchanged. *)
Theorem ingest_ids_are_stable
        (files : list (jsstring * jsstring))
        (embeddings : list Ingest.embedding) :
  exists all records,
    Ingest.allChunks files = Some all
    /\ Ingest.ingest_records files embeddings = Some records
    /\ length records = length all
    /\ (forall file content,
           In (file, content) files ->
           exists chunks,
             chunkText (length content) content
                       Ingest.CHUNK_SIZE Ingest.CHUNK_OVERLAP = Some chunks
             /\ forall i chunk,
                 chunks !! i = Some chunk ->
                 In {| Ingest.text := chunk; Ingest.source := file;
                       Ingest.chunkIndex := i |} all)
    /\ (forall i chunkInfo,
           all !! i = Some chunkInfo ->
           records !! i
           = Some {| Ingest.id :=
                       Ingest.source chunkInfo ++ lit "-chunk-"
                       ++ of_index (Ingest.chunkIndex chunkInfo);
                     Ingest.values := nth_error embeddings i;
                     Ingest.metadata :=
                       {| Ingest.md_text := Ingest.text chunkInfo;
                          Ingest.md_source := Ingest.source chunkInfo |} |})
    /\ (forall embeddings',
           exists records',
             Ingest.ingest_records files embeddings' = Some records'
             /\ map Ingest.id records' = map Ingest.id records
             /\ forall store : gmap jsstring Ingest.IndexRecord,
                 dom (Ingest.upsert (Ingest.upsert store records) records')
                 = dom (Ingest.upsert store records)
                 /\ size (Ingest.upsert (Ingest.upsert store records) records')
                    = size (Ingest.upsert store records)).
Proof.
  destruct (allChunks_total files) as (all & Hall & Hfiles).
  exists all, (Ingest.vectors all embeddings).
  unfold Ingest.ingest_records. rewrite Hall. simpl.
  split; [reflexivity|]. split; [reflexivity|].
  split; [apply length_imap|].
  split; [exact Hfiles|].
  split; [intros i chunkInfo; apply vectors_lookup|].
  intros embeddings'. exists (Ingest.vectors all embeddings').
  split; [reflexivity|].
  assert (Hids : map Ingest.id (Ingest.vectors all embeddings')
                 = map Ingest.id (Ingest.vectors all embeddings))
    by now rewrite !vectors_ids.
  split; [exact Hids|].
  intros store.
  pose proof (upsert_same_ids store _ _ Hids) as Hdom.
  split; [exact Hdom|].
  rewrite <- !size_dom, Hdom. reflexivity.
Qed.

Lemma ingest_ids_example :
  option_map (map Ingest.id) (Ingest.ingest_records Demo.docs [[1; 2; 3]])
  = Some [lit "a.md-chunk-0"].
Proof. vm_compute. reflexivity. Qed.

Lemma of_index_example : of_index 120 = lit "120".
Proof. vm_compute. reflexivity. Qed.

(** An empty stored source is labelled like a missing one. *)
Lemma empty_source_label :
  Rag.block Demo.match_c
  = Ok (lit "[source: unknown document]" ++ [LF] ++ lit "Deploy on Vercel").
Proof. vm_compute. reflexivity. Qed.

(** A match without metadata makes the retriever throw. *)
Lemma block_without_metadata (identifier : jsstring) :
  exists e,
    Rag.format_context [{| match_id := identifier; match_metadata := None |}]
    = Threw e.
Proof. eexists. reflexivity. Qed.

(** * Further properties of the chunker *)

Section ChunkerWindows.

Variable text : jsstring.
Variables chunkSize overlap : Z.
Hypothesis overlap_bounds : 0 <= overlap < chunkSize.

(** The branch under "Prevent infinite loop" is never taken: the next start
    is the end of the window minus the overlap. *)
Lemma chunk_step_next (startIndex : Z) :
  0 <= startIndex ->
  snd (chunk_step text chunkSize overlap startIndex)
  = adjust_end text (startIndex + chunkSize) - overlap.
Proof.
  intros Hs. unfold chunk_step. cbv zeta. simpl snd.
  pose proof (adjust_end_range text (startIndex + chunkSize)) as Ha.
  set (endIndex := adjust_end text (startIndex + chunkSize)) in *.
  pose proof (trim_length (slice text startIndex endIndex)) as Ht.
  pose proof (slice_length text startIndex endIndex Hs ltac:(lia)) as Hl.
  destruct (Z.leb_spec (endIndex - overlap)
              (strlen (trim (slice text startIndex endIndex)) - chunkSize));
    [lia|reflexivity].
Qed.

(** The windows of the iterations leave no gap: from the start of the loop
    on, every index of the text lies in the window of some iteration. *)
Lemma chunk_loop_covers (fuel : nat) :
  forall startIndex,
    0 <= startIndex ->
    strlen text - startIndex <= Z.of_nat fuel ->
    exists trace,
      chunk_loop fuel text chunkSize overlap startIndex = Some trace
      /\ forall k,
          startIndex <= k < strlen text ->
          exists s,
            In s (map fst trace)
            /\ s <= k < adjust_end text (s + chunkSize).
Proof.
  induction fuel as [|fuel IH]; intros startIndex Hs Hfuel.
  - exists []. simpl.
    destruct (Z.ltb_spec startIndex (strlen text)); [lia|].
    split; [reflexivity|]. intros k Hk. lia.
  - rewrite chunk_loop_unfold.
    destruct (Z.ltb_spec startIndex (strlen text)) as [Hlt|Hge].
    + pose proof (chunk_step_next startIndex Hs) as Hnext.
      pose proof (adjust_end_range text (startIndex + chunkSize)) as Ha.
      set (next := snd (chunk_step text chunkSize overlap startIndex)) in *.
      destruct (IH next) as (trace & Hrun & Hcover); [lia|lia|].
      rewrite Hrun. eexists. split; [reflexivity|].
      intros k Hk. simpl.
      destruct (Z_lt_le_dec k (adjust_end text (startIndex + chunkSize)))
        as [Hin|Hout].
      * exists startIndex. split; [now left|lia].
      * destruct (Hcover k) as (s & Hs_in & Hs_win); [lia|].
        exists s. split; [now right|exact Hs_win].
    + exists []. split; [reflexivity|]. intros k Hk. lia.
Qed.

End ChunkerWindows.

(** X1.  With [0 <= overlap < chunkSize], from a non-negative start the
    next start is exactly the end of the window minus the overlap (the
    branch of lines 42-44 is never taken), so it lies between
    [start + chunkSize - overlap] and [start + chunkSize + 50 - overlap]. *)
Theorem chunk_windows_overlap_exactly
        (text : jsstring) (chunkSize overlap startIndex : Z) :
  0 <= overlap < chunkSize ->
  0 <= startIndex ->
  snd (chunk_step text chunkSize overlap startIndex)
  = adjust_end text (startIndex + chunkSize) - overlap
  /\ startIndex + chunkSize - overlap
     <= snd (chunk_step text chunkSize overlap startIndex)
     <= startIndex + chunkSize + 50 - overlap.
Proof.
  intros Hb Hs.
  rewrite (chunk_step_next text chunkSize overlap Hb startIndex Hs).
  pose proof (adjust_end_range text (startIndex + chunkSize)).
  split; [reflexivity|lia].
Qed.

Lemma chunk_windows_overlap_exactly_witness :
  snd (chunk_step Demo.fox 20 5 0) = adjust_end Demo.fox (0 + 20) - 5
  /\ 0 + 20 - 5 <= snd (chunk_step Demo.fox 20 5 0) <= 0 + 20 + 50 - 5.
Proof.
  apply (chunk_windows_overlap_exactly Demo.fox 20 5 0); lia.
Defined.

(** X2.  With [0 <= overlap < chunkSize], every index of the text lies in
    the window [start, end) of some iteration of the loop: the windows skip
    no part of the document. *)
Theorem chunk_windows_cover_text
        (text : jsstring) (chunkSize overlap : Z) (fuel : nat) :
  0 <= overlap < chunkSize ->
  (length text <= fuel)%nat ->
  exists starts,
    start_offsets fuel text chunkSize overlap = Some starts
    /\ forall k,
        0 <= k < strlen text ->
        exists s,
          In s starts /\ s <= k < adjust_end text (s + chunkSize).
Proof.
  intros Hb Hfuel.
  destruct (chunk_loop_covers text chunkSize overlap Hb fuel 0)
    as (trace & Hrun & Hcover); [lia|unfold strlen; lia|].
  exists (map fst trace). unfold start_offsets. rewrite Hrun.
  split; [reflexivity|exact Hcover].
Qed.

Lemma chunk_windows_cover_text_witness :
  exists starts,
    start_offsets 43 Demo.fox 20 5 = Some starts
    /\ forall k,
        0 <= k < strlen Demo.fox ->
        exists s, In s starts /\ s <= k < adjust_end Demo.fox (s + 20).
Proof.
  apply (chunk_windows_cover_text Demo.fox 20 5 43).
  - lia.
  - vm_compute. lia.
Defined.

(** ** Chunks are trimmed pieces of the text *)

Section TrimFacts.

Lemma infix_of_refl (s : jsstring) : infix_of s s.
Proof. exists [], []. now rewrite app_nil_r. Qed.

Lemma infix_of_trans (a b c : jsstring) :
  infix_of a b -> infix_of b c -> infix_of a c.
Proof.
  intros (p1 & q1 & ->) (p2 & q2 & ->).
  exists (p2 ++ p1), (q1 ++ q2). now rewrite <- !app_assoc.
Qed.

Lemma infix_of_length (a b : jsstring) : infix_of a b -> strlen a <= strlen b.
Proof.
  intros (p & q & ->). unfold strlen. rewrite !length_app. lia.
Qed.

Lemma trimStart_suffix (s : jsstring) : exists before, s = before ++ trimStart s.
Proof.
  induction s as [|x s (before & IH)]; simpl.
  - now exists [].
  - destruct (is_trim_unit x).
    + exists (x :: before). simpl. now f_equal.
    + now exists [].
Qed.

Lemma trimEnd_prefix (s : jsstring) : exists after, s = trimEnd s ++ after.
Proof.
  unfold trimEnd. destruct (trimStart_suffix (rev s)) as (before & H).
  exists (rev before).
  rewrite <- rev_app_distr, <- H. now rewrite rev_involutive.
Qed.

Lemma trim_infix (s : jsstring) : infix_of (trim s) s.
Proof.
  unfold trim.
  destruct (trimStart_suffix s) as (before & Hs).
  destruct (trimEnd_prefix (trimStart s)) as (after & Ht).
  exists before, after. now rewrite <- Ht.
Qed.

Lemma slice_infix (s : jsstring) (start end_ : Z) :
  infix_of (slice s start end_) s.
Proof.
  unfold slice. cbv zeta.
  set (m := Z.to_nat (clamp_index (strlen s) start)).
  set (n := Z.to_nat (Z.max (clamp_index (strlen s) end_
                             - clamp_index (strlen s) start) 0)).
  exists (firstn m s), (skipn n (skipn m s)).
  now rewrite firstn_skipn, firstn_skipn.
Qed.

(** What [trimStart] leaves does not begin with white space. *)
Lemma trimStart_head (s : jsstring) (x : unit16) (rest : jsstring) :
  trimStart s = x :: rest -> is_trim_unit x = false.
Proof.
  induction s as [|y s IH]; simpl; [discriminate|].
  destruct (is_trim_unit y) eqn:Hy; [exact IH|].
  intros [= <- _]. exact Hy.
Qed.

Lemma trim_last (s : jsstring) (x : unit16) (rest : jsstring) :
  rev (trim s) = x :: rest -> is_trim_unit x = false.
Proof.
  unfold trim, trimEnd. rewrite rev_involutive. apply trimStart_head.
Qed.

Lemma trim_head (s : jsstring) (x : unit16) (rest : jsstring) :
  trim s = x :: rest -> is_trim_unit x = false.
Proof.
  unfold trim. intros H.
  destruct (trimEnd_prefix (trimStart s)) as (after & Ht).
  rewrite H in Ht. simpl in Ht.
  exact (trimStart_head s x _ Ht).
Qed.

End TrimFacts.

(** Every chunk the loop pushes, whatever the parameters, is a trimmed
    piece of the text. *)
Lemma chunk_loop_pieces (text : jsstring) (chunkSize overlap : Z) (fuel : nat) :
  forall startIndex trace,
    chunk_loop fuel text chunkSize overlap startIndex = Some trace ->
    Forall (fun chunk =>
              infix_of chunk text
              /\ (forall x rest, chunk = x :: rest -> is_trim_unit x = false)
              /\ (forall x rest, rev chunk = x :: rest -> is_trim_unit x = false))
           (map snd trace).
Proof.
  induction fuel as [|fuel IH]; intros startIndex trace.
  - simpl. destruct (startIndex <? strlen text); [discriminate|].
    intros [= <-]. constructor.
  - rewrite chunk_loop_unfold.
    destruct (startIndex <? strlen text); [|intros [= <-]; constructor].
    destruct (chunk_loop fuel text chunkSize overlap
                (snd (chunk_step text chunkSize overlap startIndex)))
      as [rest|] eqn:Hrest; [|discriminate].
    simpl. intros [= <-]. simpl. constructor; [|exact (IH _ _ Hrest)].
    unfold chunk_step. cbv zeta. simpl fst.
    split; [|split].
    + eapply infix_of_trans; [apply trim_infix|apply slice_infix].
    + apply trim_head.
    + apply trim_last.
Qed.

Lemma Forall_filter_weaken (P : jsstring -> Prop) (l : list jsstring) :
  Forall P l -> Forall (fun chunk => P chunk /\ keep chunk = true)
                       (List.filter keep l).
Proof.
  induction 1 as [|x l Hx Hl IH]; simpl; [constructor|].
  destruct (keep x) eqn:Hk; [constructor; auto|assumption].
Qed.

(** X3.  Whatever the parameters, every chunk [chunkText] returns occurs
    verbatim in the text as a run of consecutive units, and neither begins
    nor ends with a white-space or line-terminator unit. *)
Theorem chunkText_chunks_are_trimmed_pieces
        (text : jsstring) (chunkSize overlap : Z) (fuel : nat)
        (chunks : list jsstring) :
  chunkText fuel text chunkSize overlap = Some chunks ->
  Forall (fun chunk =>
            infix_of chunk text
            /\ (forall x rest, chunk = x :: rest -> is_trim_unit x = false)
            /\ (forall x rest, rev chunk = x :: rest -> is_trim_unit x = false))
         chunks.
Proof.
  unfold chunkText.
  destruct (chunk_loop fuel text chunkSize overlap 0) as [trace|] eqn:Hrun;
    [|discriminate].
  simpl. intros [= <-].
  apply Forall_filter_keep.
  exact (chunk_loop_pieces text chunkSize overlap fuel 0 trace Hrun).
Qed.

Lemma chunkText_chunks_are_trimmed_pieces_witness :
  Forall (fun chunk =>
            infix_of chunk Demo.fox
            /\ (forall x rest, chunk = x :: rest -> is_trim_unit x = false)
            /\ (forall x rest, rev chunk = x :: rest -> is_trim_unit x = false))
         [lit "The quick brown fox"; lit "fox jumps over the";
          lit "the lazy dog"].
Proof.
  apply (chunkText_chunks_are_trimmed_pieces Demo.fox 20 5 43).
  vm_compute. reflexivity.
Defined.

(** X4.  Whatever the parameters, a text of at most ten units (the empty
    document included) yields no chunk at all. *)
Theorem chunkText_short_text_yields_nothing
        (text : jsstring) (chunkSize overlap : Z) (fuel : nat)
        (chunks : list jsstring) :
  strlen text <= MIN_CHUNK_LENGTH ->
  chunkText fuel text chunkSize overlap = Some chunks ->
  chunks = [].
Proof.
  intros Hshort Hrun.
  pose proof (chunk_loop_pieces text chunkSize overlap fuel 0) as Hpieces.
  unfold chunkText in Hrun.
  destruct (chunk_loop fuel text chunkSize overlap 0) as [trace|];
    [|discriminate].
  simpl in Hrun. injection Hrun as <-.
  specialize (Hpieces trace eq_refl).
  apply Forall_filter_weaken in Hpieces.
  destruct (List.filter keep (map snd trace)) as [|chunk rest];
    [reflexivity|exfalso].
  inversion Hpieces as [|? ? [[Hi _] Hk] _]. subst.
  apply infix_of_length in Hi.
  unfold keep in Hk. apply Z.ltb_lt in Hk. lia.
Qed.

Lemma chunkText_short_text_yields_nothing_witness :
  strlen (lit "0123456789") <= MIN_CHUNK_LENGTH
  /\ chunkText 10 (lit "0123456789") 4 1 = Some []
  /\ ([] : list jsstring) = [].
Proof.
  assert (Hshort : strlen (lit "0123456789") <= MIN_CHUNK_LENGTH)
    by (vm_compute; discriminate).
  assert (Hrun : chunkText 10 (lit "0123456789") 4 1 = Some [])
    by (vm_compute; reflexivity).
  split; [exact Hshort|]. split; [exact Hrun|].
  exact (chunkText_short_text_yields_nothing
           (lit "0123456789") 4 1 10 [] Hshort Hrun).
Defined.

(** ** Small documents and stuck iterations *)

Lemma slice_whole (text : jsstring) (end_ : Z) :
  strlen text <= end_ -> slice text 0 end_ = text.
Proof.
  intros He. pose proof (strlen_nonneg text) as Hl.
  unfold slice, clamp_index. cbv zeta.
  destruct (Z.ltb_spec 0 0); [lia|].
  destruct (Z.ltb_spec end_ 0); [lia|].
  replace (Z.min 0 (strlen text)) with 0 by lia.
  replace (Z.min end_ (strlen text)) with (strlen text) by lia.
  simpl skipn.
  replace (Z.to_nat (Z.max (strlen text - 0) 0)) with (length text)
    by (unfold strlen; lia).
  apply firstn_all.
Qed.

(** X5.  With [0 <= overlap < chunkSize], a non-empty document no longer
    than [chunkSize - overlap] is cut in a single iteration: the result is
    the trimmed document alone, or nothing when that is not longer than ten
    units. *)
Theorem chunkText_small_document
        (text : jsstring) (chunkSize overlap : Z) (fuel : nat) :
  0 <= overlap < chunkSize ->
  0 < strlen text <= chunkSize - overlap ->
  start_offsets (S fuel) text chunkSize overlap = Some [0]
  /\ chunkText (S fuel) text chunkSize overlap
     = Some (if MIN_CHUNK_LENGTH <? strlen (trim text) then [trim text] else []).
Proof.
  intros Hb Hlen.
  assert (Hend : adjust_end text (0 + chunkSize) = chunkSize).
  { rewrite Z.add_0_l. unfold adjust_end.
    destruct (Z.ltb_spec chunkSize (strlen text)); [lia|reflexivity]. }
  assert (Hstep : chunk_step text chunkSize overlap 0
                  = (trim text, chunkSize - overlap)).
  { unfold chunk_step. cbv zeta. rewrite Hend.
    rewrite (slice_whole text chunkSize) by lia.
    pose proof (trim_length text).
    destruct (Z.leb_spec (chunkSize - overlap)
                (strlen (trim text) - chunkSize)); [lia|reflexivity]. }
  assert (Hloop : chunk_loop (S fuel) text chunkSize overlap 0
                  = Some [(0, trim text)]).
  { rewrite chunk_loop_unfold, Hstep. simpl fst. simpl snd.
    destruct (Z.ltb_spec 0 (strlen text)); [|lia].
    assert (Hstop : chunk_loop fuel text chunkSize overlap
                      (chunkSize - overlap) = Some []).
    { destruct fuel; simpl;
        destruct (Z.ltb_spec (chunkSize - overlap) (strlen text));
        try lia; reflexivity. }
    rewrite Hstop. reflexivity. }
  unfold start_offsets, chunkText. rewrite Hloop. simpl.
  split; [reflexivity|]. unfold keep. reflexivity.
Qed.

Lemma chunkText_small_document_witness :
  chunkText 1 Demo.fox 500 100 = Some [Demo.fox].
Proof.
  apply (chunkText_small_document Demo.fox 500 100 0).
  - lia.
  - vm_compute. split; [reflexivity|discriminate].
Defined.

(** X6.  An iteration that leaves the start where it was is repeated for
    ever: if, inside the text, one step returns its own start as the next
    start, the loop returns for no amount of fuel. *)
Theorem chunk_loop_stuck_never_returns
        (text : jsstring) (chunkSize overlap startIndex : Z) (fuel : nat) :
  startIndex < strlen text ->
  snd (chunk_step text chunkSize overlap startIndex) = startIndex ->
  chunk_loop fuel text chunkSize overlap startIndex = None.
Proof.
  intros Hin Hstuck. induction fuel as [|fuel IH].
  - simpl. apply Z.ltb_lt in Hin. now rewrite Hin.
  - rewrite chunk_loop_unfold, Hstuck, IH.
    apply Z.ltb_lt in Hin. now rewrite Hin.
Qed.

Lemma chunk_loop_stuck_never_returns_witness :
  chunkText 1000 Demo.padded 5 5 = None.
Proof.
  unfold chunkText.
  rewrite (chunk_loop_stuck_never_returns Demo.padded 5 5 0 1000).
  - reflexivity.
  - vm_compute. reflexivity.
  - vm_compute. reflexivity.
Defined.

(** * Further properties of the ingestion records *)

Section RecordIds.

Import Ingest.

Lemma of_uint_no_hyphen (u : Decimal.uint) :
  Forall (fun c => c <> HYPHEN) (of_uint u).
Proof.
  induction u; simpl; constructor; try assumption;
    vm_compute; discriminate.
Qed.

Lemma of_uint_inj (u v : Decimal.uint) : of_uint u = of_uint v -> u = v.
Proof.
  revert v. induction u as [|u IH|u IH|u IH|u IH|u IH|u IH|u IH|u IH|u IH|u IH];
    intros [|v|v|v|v|v|v|v|v|v|v] H; simpl in H;
    try reflexivity; try (vm_compute in H; discriminate);
    injection H as H; f_equal; apply IH, H.
Qed.

(** The decimal rendering of an index determines the index. *)
Lemma of_index_inj (n m : nat) : of_index n = of_index m -> n = m.
Proof.
  unfold of_index. intros H. apply of_uint_inj in H.
  rewrite <- (DecimalNat.Unsigned.of_to n), <- (DecimalNat.Unsigned.of_to m).
  now rewrite H.
Qed.

(** A hyphen followed by a hyphen-free tail splits a string in one way. *)
Lemma last_hyphen_split (a a' d d' : jsstring) :
  Forall (fun c => c <> HYPHEN) d ->
  Forall (fun c => c <> HYPHEN) d' ->
  a ++ HYPHEN :: d = a' ++ HYPHEN :: d' ->
  a = a' /\ d = d'.
Proof.
  intros Hd Hd'. revert a'.
  induction a as [|x a IH]; intros [|y a']; simpl; intros H.
  - injection H as H. auto.
  - injection H as _ H. exfalso. subst d.
    apply Forall_app in Hd as [_ Hd]. inversion Hd. congruence.
  - injection H as _ H. exfalso. subst d'.
    apply Forall_app in Hd' as [_ Hd']. inversion Hd'. congruence.
  - injection H as -> H. destruct (IH a' H) as [-> ->]. auto.
Qed.

Lemma id_of_pair_inj (s s' : jsstring) (i i' : nat) :
  s ++ lit "-chunk-" ++ of_index i = s' ++ lit "-chunk-" ++ of_index i' ->
  s = s' /\ i = i'.
Proof.
  assert (Hsplit : forall (t : jsstring) (k : nat),
             t ++ lit "-chunk-" ++ of_index k
             = (t ++ lit "-chunk") ++ HYPHEN :: of_index k).
  { intros t k. rewrite <- app_assoc. reflexivity. }
  rewrite !Hsplit. intros H.
  apply last_hyphen_split in H as [Hs Hi];
    try apply of_uint_no_hyphen.
  apply app_inv_tail in Hs. apply of_index_inj in Hi. auto.
Qed.

End RecordIds.

(** X7.  The id of a record determines the chunk it was derived from: two
    chunks with the same id have the same source and the same chunk index,
    whatever characters the source contains. *)
Theorem record_id_injective (a b : Ingest.ChunkInfo) :
  Ingest.record_id a = Ingest.record_id b ->
  Ingest.source a = Ingest.source b
  /\ Ingest.chunkIndex a = Ingest.chunkIndex b.
Proof. unfold Ingest.record_id. apply id_of_pair_inj. Qed.

Lemma record_id_injective_witness :
  Ingest.source {| Ingest.text := lit "x"; Ingest.source := lit "a.md";
                   Ingest.chunkIndex := 12 |}
  = Ingest.source {| Ingest.text := lit "y"; Ingest.source := lit "a.md";
                     Ingest.chunkIndex := 12 |}
  /\ 12%nat = 12%nat.
Proof.
  apply (record_id_injective
           {| Ingest.text := lit "x"; Ingest.source := lit "a.md";
              Ingest.chunkIndex := 12 |}
           {| Ingest.text := lit "y"; Ingest.source := lit "a.md";
              Ingest.chunkIndex := 12 |}).
  vm_compute. reflexivity.
Defined.

Section RunIds.

Import Ingest.

Lemma file_chunks_lookup (file : jsstring) (chunks : list jsstring)
      (i : nat) (chunkInfo : ChunkInfo) :
  file_chunks file chunks !! i = Some chunkInfo ->
  source chunkInfo = file /\ chunkIndex chunkInfo = i
  /\ chunks !! i = Some (text chunkInfo).
Proof.
  unfold file_chunks. rewrite list_lookup_imap.
  destruct (chunks !! i) as [chunk|]; simpl; [|discriminate].
  intros [= <-]. auto.
Qed.

(** Where the elements of [allChunks] come from. *)
Lemma allChunks_origin (files : list (jsstring * jsstring)) :
  forall all,
    allChunks files = Some all ->
    forall chunkInfo,
      chunkInfo ∈ all ->
      exists content chunks,
        (source chunkInfo, content) ∈ files
        /\ chunkText (length content) content CHUNK_SIZE CHUNK_OVERLAP
           = Some chunks
        /\ chunks !! chunkIndex chunkInfo = Some (text chunkInfo).
Proof.
  induction files as [|[file content] files IH]; intros all; simpl.
  - intros [= <-] chunkInfo Hin. inversion Hin.
  - destruct (chunkText (length content) content CHUNK_SIZE CHUNK_OVERLAP)
      as [chunks|] eqn:Hchunks; [|discriminate].
    destruct (allChunks files) as [more|]; [|discriminate].
    intros [= <-] chunkInfo Hin.
    apply elem_of_app in Hin as [Hin|Hin].
    + apply list_elem_of_lookup in Hin as [i Hi].
      apply file_chunks_lookup in Hi as (<- & <- & Hi).
      exists content, chunks. split; [left|auto].
    + destruct (IH more eq_refl chunkInfo Hin) as (c & cs & H1 & H2 & H3).
      exists c, cs. split; [right; exact H1|auto].
Qed.

Lemma allChunks_ids_NoDup (files : list (jsstring * jsstring)) :
  forall all,
    NoDup (map fst files) ->
    allChunks files = Some all ->
    NoDup (map record_id all).
Proof.
  induction files as [|[file content] files IH]; intros all Hnames; simpl.
  - intros [= <-]. constructor.
  - destruct (chunkText (length content) content CHUNK_SIZE CHUNK_OVERLAP)
      as [chunks|] eqn:Hchunks; [|discriminate].
    destruct (allChunks files) as [more|] eqn:Hmore; [|discriminate].
    intros [= <-]. simpl in Hnames. apply NoDup_cons in Hnames as [Hfresh Hrest].
    rewrite map_app. apply NoDup_app. split; [|split].
    + apply NoDup_alt. intros i j x Hi Hj.
      change (map record_id (file_chunks file chunks))
        with (record_id <$> file_chunks file chunks) in Hi, Hj.
      rewrite list_lookup_fmap in Hi, Hj.
      destruct (file_chunks file chunks !! i) as [a|] eqn:Ha; [|discriminate].
      destruct (file_chunks file chunks !! j) as [b|] eqn:Hb; [|discriminate].
      simpl in Hi, Hj. injection Hi as Hi. injection Hj as Hj.
      apply file_chunks_lookup in Ha as (_ & <- & _).
      apply file_chunks_lookup in Hb as (_ & <- & _).
      apply (id_of_pair_inj (source a) (source b)). unfold record_id in *.
      congruence.
    + intros x Hx Hx'.
      change (x ∈ record_id <$> file_chunks file chunks) in Hx.
      change (x ∈ record_id <$> more) in Hx'.
      apply list_elem_of_fmap in Hx as (a & -> & Ha).
      apply list_elem_of_fmap in Hx' as (b & Hab & Hb).
      apply list_elem_of_lookup in Ha as [i Ha].
      apply file_chunks_lookup in Ha as (Hsrc & _ & _).
      destruct (allChunks_origin files more Hmore b Hb) as (c & _ & Hin & _).
      apply id_of_pair_inj in Hab as [Hs _].
      apply Hfresh.
      change (file ∈ fst <$> files). apply list_elem_of_fmap.
      exists (source b, c). split; [simpl; congruence|exact Hin].
    + exact (IH more Hrest eq_refl).
Qed.

End RunIds.

(** X8.  When the documents have pairwise distinct names, the records of one
    run have pairwise distinct ids: no chunk overwrites another, and
    upserting them into an empty index stores as many records as there are
    chunks. *)
Theorem ingest_ids_are_distinct
        (files : list (jsstring * jsstring))
        (embeddings : list Ingest.embedding)
        (records : list Ingest.IndexRecord) :
  NoDup (map fst files) ->
  Ingest.ingest_records files embeddings = Some records ->
  NoDup (map Ingest.id records)
  /\ size (Ingest.upsert ∅ records) = length records.
Proof.
  intros Hnames. unfold Ingest.ingest_records.
  destruct (Ingest.allChunks files) as [all|] eqn:Hall; [|discriminate].
  simpl. intros [= <-].
  assert (Hids : NoDup (map Ingest.id (Ingest.vectors all embeddings))).
  { rewrite vectors_ids. exact (allChunks_ids_NoDup files all Hnames Hall). }
  split; [exact Hids|].
  rewrite <- size_dom, dom_upsert, dom_empty_L, union_empty_l_L.
  rewrite size_list_to_set by exact Hids.
  apply length_map.
Qed.

Lemma ingest_ids_are_distinct_witness :
  size (Ingest.upsert ∅
          [ {| Ingest.id := lit "a.md-chunk-0";
               Ingest.values := Some [1; 2; 3];
               Ingest.metadata :=
                 {| Ingest.md_text :=
                      lit "Frontend: Next.js App Router with Tailwind.";
                    Ingest.md_source := lit "a.md" |} |} ])
  = 1%nat.
Proof.
  apply (ingest_ids_are_distinct Demo.docs [[1; 2; 3]]).
  - repeat constructor. intros H. inversion H.
  - vm_compute. reflexivity.
Defined.

(** * Properties of the ingestion script *)

Section MainFacts.

Import Ingest IngestMain.

Lemma read_files_origin (entries : list Entry) :
  forall contents,
    read_files entries = Ok contents ->
    forall name content,
      In (name, content) contents ->
      exists e,
        In e entries /\ entry_name e = name /\ entry_content e = Ok content.
Proof.
  induction entries as [|e entries IH]; intros contents; simpl.
  - intros [= <-] name content [].
  - destruct (entry_content e) as [c|err] eqn:Hc; [|discriminate].
    destruct (read_files entries) as [more|err]; [|discriminate].
    intros [= <-] name content [[= <- <-]|Hin].
    + exists e. auto.
    + destruct (IH more eq_refl name content Hin) as (e' & H1 & H2 & H3).
      exists e'. auto.
Qed.



Lemma vectors_origin (all : list ChunkInfo) (embeddings : list embedding)
      (r : IndexRecord) :
  In r (vectors all embeddings) ->
  exists chunkInfo,
    chunkInfo ∈ all
    /\ id r = record_id chunkInfo
    /\ md_text (metadata r) = text chunkInfo
    /\ md_source (metadata r) = source chunkInfo.
Proof.
  intros Hin. apply list_elem_of_In in Hin.
  unfold vectors in Hin.
  apply elem_of_lookup_imap_1 in Hin as (i & chunkInfo & -> & Hi).
  exists chunkInfo. split; [|auto].
  apply list_elem_of_lookup. eauto.
Qed.

(** The script, case by case. *)
Lemma main_cases (w : IngestWorld) (dir : option (list Entry)) :
  (main w dir = ([], Returned)
   /\ (dir = None
       \/ exists entries,
           dir = Some entries
           /\ List.filter (fun e => is_doc (entry_name e)) entries = []))
  \/ (exists entries err,
         dir = Some entries
         /\ read_files (List.filter (fun e => is_doc (entry_name e)) entries)
            = Threw err
         /\ main w dir = ([], Rejected err))
  \/ (exists entries contents all,
         dir = Some entries
         /\ read_files (List.filter (fun e => is_doc (entry_name e)) entries)
            = Ok contents
         /\ allChunks contents = Some all
         /\ ((exists err,
                 w_embedMany w EMBEDDING_MODEL (map text all) = Threw err
                 /\ main w dir
                    = ([EvEmbedMany EMBEDDING_MODEL (map text all)], Returned))
             \/ (exists embeddings,
                    w_embedMany w EMBEDDING_MODEL (map text all) = Ok embeddings
                    /\ main w dir
                       = ([EvEmbedMany EMBEDDING_MODEL (map text all);
                           EvUpsert NAMESPACE (vectors all embeddings)],
                          Returned)))).
Proof.
  destruct dir as [entries|]; [|left; split; [reflexivity|now left]].
  unfold main.
  destruct (List.filter (fun e => is_doc (entry_name e)) entries)
    as [|e files] eqn:Hfiles.
  { left. split; [reflexivity|]. right. exists entries. auto. }
  right.
  destruct (read_files (e :: files)) as [contents|err] eqn:Hread.
  - right. destruct (allChunks_total contents) as (all & Hall & _).
    exists entries, contents, all. rewrite Hfiles, Hread, Hall.
    split; [reflexivity|]. split; [reflexivity|]. split; [reflexivity|].
    destruct (w_embedMany w EMBEDDING_MODEL (map text all))
      as [embeddings|err] eqn:Hembed.
    + right. exists embeddings. split; [reflexivity|].
      destruct (w_upsert w NAMESPACE (vectors all embeddings)); reflexivity.
    + left. exists err. auto.
  - left. exists entries, err. rewrite Hfiles, Hread. auto.
Qed.

Lemma is_doc_nonempty (f : jsstring) : is_doc f = true -> f <> [].
Proof. intros H ->. vm_compute in H. discriminate. Qed.

End MainFacts.



Lemma main_embeds_then_upserts_example :
  IngestMain.main Fixtures.failing_embedder
                  (Some [Fixtures.image; Fixtures.notes])
  = ([IngestMain.EvEmbedMany
        (lit "gemini-embedding-001")
        [lit "Backend: Express server with a RAG agent controller."]],
     IngestMain.Returned).
Proof. vm_compute. reflexivity. Qed.

(** X10.  When the docs directory is missing, or lists no name ending in
    '.md' or '.txt', the script returns without calling the embedding
    service or the index. *)
Theorem main_skips_without_documents
        (w : IngestMain.IngestWorld) (dir : option (list IngestMain.Entry)) :
  dir = None
  \/ (exists entries,
         dir = Some entries
         /\ Forall (fun e => IngestMain.is_doc (IngestMain.entry_name e) = false)
                   entries) ->
  IngestMain.main w dir = ([], IngestMain.Returned).
Proof.
  intros [->|(entries & -> & Hnone)]; [reflexivity|].
  unfold IngestMain.main.
  replace (List.filter (fun e => IngestMain.is_doc (IngestMain.entry_name e))
                       entries) with (@nil IngestMain.Entry); [reflexivity|].
  symmetry. induction Hnone as [|e entries He _ IH]; simpl; [reflexivity|].
  now rewrite He.
Qed.

Lemma main_skips_without_documents_witness :
  IngestMain.main Fixtures.steady_services (Some [Fixtures.image])
  = ([], IngestMain.Returned).
Proof.
  apply (main_skips_without_documents
           Fixtures.steady_services (Some [Fixtures.image])).
  right. exists [Fixtures.image]. split; [reflexivity|].
  repeat constructor.
Defined.

(** X11.  Every record the script upserts comes from a listed file whose
    name ends in '.md' or '.txt' and that was read: its metadata source is
    that file name, its metadata text is a chunk of that file's content, at
    the position that is its chunk index, and its id is
    [<file>-chunk-<index>]. *)
Theorem main_upserts_only_document_chunks
        (w : IngestMain.IngestWorld) (dir : option (list IngestMain.Entry))
        (ns : jsstring) (records : list Ingest.IndexRecord)
        (r : Ingest.IndexRecord) :
  In (IngestMain.EvUpsert ns records) (fst (IngestMain.main w dir)) ->
  In r records ->
  exists entries e content chunks i,
    dir = Some entries
    /\ In e entries
    /\ IngestMain.is_doc (IngestMain.entry_name e) = true
    /\ IngestMain.entry_content e = Ok content
    /\ chunkText (length content) content
                 Ingest.CHUNK_SIZE Ingest.CHUNK_OVERLAP = Some chunks
    /\ chunks !! i = Some (Ingest.md_text (Ingest.metadata r))
    /\ Ingest.md_source (Ingest.metadata r) = IngestMain.entry_name e
    /\ Ingest.id r
       = IngestMain.entry_name e ++ lit "-chunk-" ++ of_index i.
Proof.
  intros Hev Hr.
  destruct (main_cases w dir)
    as [[Hmain _]
       |[(entries & err & _ & _ & Hmain)
        |(entries & contents & all & Hdir & Hread & Hall
          & [(err & Hembed & Hmain)|(embeddings & Hembed & Hmain)])]];
    rewrite Hmain in Hev; simpl in Hev;
    try (destruct Hev as [Hev|Hev]; [discriminate|]);
    try contradiction.
  destruct Hev as [Hev|[]]. injection Hev as _ <-.
  destruct (vectors_origin all embeddings r Hr)
    as (chunkInfo & Hin & Hid & Htext & Hsource).
  destruct (allChunks_origin contents all Hall chunkInfo Hin)
    as (content & chunks & Hc & Hchunks & Hi).
  apply list_elem_of_In in Hc.
  destruct (read_files_origin _ contents Hread _ _ Hc)
    as (e & He & Hname & Hcontent).
  apply List.filter_In in He as [He Hdoc].
  exists entries, e, content, chunks, (Ingest.chunkIndex chunkInfo).
  rewrite Htext, Hsource, Hid, Hname. unfold Ingest.record_id.
  repeat split; auto. now rewrite <- Hname.
Qed.

Lemma main_upserts_only_document_chunks_example :
  IngestMain.main Fixtures.steady_services
                  (Some [Fixtures.image; Fixtures.notes])
  = ([IngestMain.EvEmbedMany
        (lit "gemini-embedding-001")
        [lit "Backend: Express server with a RAG agent controller."];
      IngestMain.EvUpsert
        (lit "my-company-docs")
        [ {| Ingest.id := lit "notes.md-chunk-0";
             Ingest.values := Some [1; 2];
             Ingest.metadata :=
               {| Ingest.md_text :=
                    lit "Backend: Express server with a RAG agent controller.";
                  Ingest.md_source := lit "notes.md" |} |} ]],
     IngestMain.Returned).
Proof. vm_compute. reflexivity. Qed.

Lemma main_upserts_only_document_chunks_witness :
  exists entries e content chunks i,
    Some [Fixtures.image; Fixtures.notes] = Some entries
    /\ In e entries
    /\ IngestMain.is_doc (IngestMain.entry_name e) = true
    /\ IngestMain.entry_content e = Ok content
    /\ chunkText (length content) content
                 Ingest.CHUNK_SIZE Ingest.CHUNK_OVERLAP = Some chunks
    /\ chunks !! i
       = Some (lit "Backend: Express server with a RAG agent controller.")
    /\ lit "notes.md" = IngestMain.entry_name e
    /\ lit "notes.md-chunk-0"
       = IngestMain.entry_name e ++ lit "-chunk-" ++ of_index i.
Proof.
  apply (main_upserts_only_document_chunks
           Fixtures.steady_services (Some [Fixtures.image; Fixtures.notes])
           (lit "my-company-docs")
           [ {| Ingest.id := lit "notes.md-chunk-0";
                Ingest.values := Some [1; 2];
                Ingest.metadata :=
                  {| Ingest.md_text :=
                       lit "Backend: Express server with a RAG agent controller.";
                     Ingest.md_source := lit "notes.md" |} |} ]
           {| Ingest.id := lit "notes.md-chunk-0";
              Ingest.values := Some [1; 2];
              Ingest.metadata :=
                {| Ingest.md_text :=
                     lit "Backend: Express server with a RAG agent controller.";
                   Ingest.md_source := lit "notes.md" |} |}).
  - rewrite main_upserts_only_document_chunks_example. simpl. right. left.
    reflexivity.
  - left. reflexivity.
Defined.

(** ** From ingestion to retrieval *)

Section IngestThenRetrieve.

Import Ingest IngestMain.

Lemma upserted_source_is_doc
      (w : IngestWorld) (dir : option (list Entry)) (ns : jsstring)
      (records : list IndexRecord) (r : IndexRecord) :
  In (EvUpsert ns records) (fst (main w dir)) ->
  In r records ->
  ns = NAMESPACE /\ is_doc (md_source (metadata r)) = true.
Proof.
  intros Hev Hr.
  destruct (main_cases w dir)
    as [[Hmain _]
       |[(entries & err & _ & _ & Hmain)
        |(entries & contents & all & Hdir & Hread & Hall
          & [(err & Hembed & Hmain)|(embeddings & Hembed & Hmain)])]];
    rewrite Hmain in Hev; simpl in Hev;
    try (destruct Hev as [Hev|Hev]; [discriminate|]);
    try contradiction.
  destruct Hev as [Hev|[]]. injection Hev as <- <-.
  split; [reflexivity|].
  destruct (vectors_origin all embeddings r Hr) as (info & Hin & _ & _ & ->).
  destruct (allChunks_origin contents all Hall info Hin) as (c & _ & Hc & _).
  apply list_elem_of_In in Hc.
  destruct (read_files_origin _ contents Hread _ _ Hc) as (e & He & <- & _).
  now apply List.filter_In in He as [_ Hdoc].
Qed.

Lemma block_of_record (r : IndexRecord) :
  md_source (metadata r) <> [] ->
  stored_text (match_of_record r) = Some (md_text (metadata r))
  /\ spec_label (match_of_record r) = md_source (metadata r).
Proof.
  intros Hne. split; [reflexivity|].
  unfold spec_label, stored_source, match_of_record. simpl.
  destruct (md_source (metadata r)); [contradiction|reflexivity].
Qed.

Lemma map_blocks_cons (m : Match) (ms : list Match) :
  Rag.map_blocks (m :: ms)
  = match Rag.block m with
    | Threw e => Threw e
    | Ok b =>
        match Rag.map_blocks ms with
        | Threw e => Threw e
        | Ok bs => Ok (b :: bs)
        end
    end.
Proof. reflexivity. Qed.

End IngestThenRetrieve.

(** X12.  Ingestion and retrieval fit together: the script upserts into the
    namespace the retriever queries, with the embedding model the retriever
    uses, and whatever records of a run the index returns as matches (with
    their stored metadata), the retriever formats them without throwing,
    each block labelled with the file the chunk came from, never with
    'unknown document'. *)
Theorem ingested_records_format_with_their_file
        (w : IngestMain.IngestWorld) (dir : option (list IngestMain.Entry))
        (ns : jsstring) (records returned : list Ingest.IndexRecord)
        (q : jsstring) (v : Ingest.embedding) :
  In (IngestMain.EvUpsert ns records) (fst (IngestMain.main w dir)) ->
  (forall r, In r returned -> In r records) ->
  ns = q_namespace (Rag.query_request v)
  /\ IngestMain.EMBEDDING_MODEL = embed_model (Rag.embed_request q)
  /\ Rag.format_context (map match_of_record returned)
     = Ok (join Rag.SEPARATOR
             (map (fun r =>
                     lit "[source: " ++ Ingest.md_source (Ingest.metadata r)
                     ++ lit "]" ++ [LF]
                     ++ Ingest.md_text (Ingest.metadata r))
                  returned))
  /\ Forall (fun r => IngestMain.is_doc (Ingest.md_source (Ingest.metadata r))
                      = true) returned.
Proof.
  intros Hev Hsub.
  assert (Hdocs : Forall (fun r => IngestMain.is_doc
                                     (Ingest.md_source (Ingest.metadata r))
                                   = true) returned).
  { apply List.Forall_forall. intros r Hr.
    exact (proj2 (upserted_source_is_doc w dir ns records r Hev (Hsub r Hr))). }
  split.
  { destruct returned as [|r rest].
    - destruct (main_cases w dir)
        as [[Hmain _]
           |[(entries & err & _ & _ & Hmain)
            |(entries & contents & all & _ & _ & _
              & [(err & _ & Hmain)|(embeddings & _ & Hmain)])]];
        rewrite Hmain in Hev; simpl in Hev;
        try (destruct Hev as [Hev|Hev]; [discriminate|]);
        try contradiction.
      destruct Hev as [Hev|[]]. injection Hev as <- _. reflexivity.
    - exact (proj1 (upserted_source_is_doc w dir ns records r Hev
                      (Hsub r (or_introl eq_refl)))). }
  split; [reflexivity|]. split; [|exact Hdocs].
  unfold Rag.format_context.
  assert (Hblocks :
            Rag.map_blocks (map match_of_record returned)
            = Ok (map (fun r =>
                         lit "[source: " ++ Ingest.md_source (Ingest.metadata r)
                         ++ lit "]" ++ [LF]
                         ++ Ingest.md_text (Ingest.metadata r)) returned)).
  { clear Hsub. induction Hdocs as [|r rest Hr _ IH]; [reflexivity|].
    destruct (block_of_record r (is_doc_nonempty _ Hr)) as [Htext Hlabel].
    rewrite !map_cons, map_blocks_cons.
    rewrite (block_spec _ _ Htext), Hlabel, IH. reflexivity. }
  now rewrite Hblocks.
Qed.

Lemma ingested_records_format_with_their_file_witness :
  Rag.format_context
    (map match_of_record
         [ {| Ingest.id := lit "notes.md-chunk-0";
              Ingest.values := Some [1; 2];
              Ingest.metadata :=
                {| Ingest.md_text :=
                     lit "Backend: Express server with a RAG agent controller.";
                   Ingest.md_source := lit "notes.md" |} |} ])
  = Ok (lit "[source: notes.md]" ++ [LF]
        ++ lit "Backend: Express server with a RAG agent controller.").
Proof.
  refine (proj1 (proj2 (proj2
    (ingested_records_format_with_their_file
       Fixtures.steady_services (Some [Fixtures.image; Fixtures.notes])
       (lit "my-company-docs") _ _ [] [] _ (fun r H => H))))).
  rewrite main_upserts_only_document_chunks_example. simpl. right. left.
  reflexivity.
Defined.

(** * Further properties of the retriever *)

Section RetrieverErrors.

Import Rag.

Lemma block_starts_with_label (m : Match) (b : jsstring) :
  block m = Ok b -> exists rest, b = lit "[source: " ++ rest.
Proof.
  unfold block. destruct (match_metadata m) as [md|]; [|discriminate].
  intros [= <-]. eexists. reflexivity.
Qed.

Lemma block_throws_TypeError (m : Match) (e : JsError) :
  block m = Threw e ->
  match_metadata m = None /\ exists message, e = TypeError message.
Proof.
  unfold block. destruct (match_metadata m) as [md|]; [discriminate|].
  intros [= <-]. split; [reflexivity|]. eexists. reflexivity.
Qed.

Lemma map_blocks_ok (ms : list Match) :
  Forall (fun m => match_metadata m <> None) ms ->
  exists blocks, map_blocks ms = Ok blocks.
Proof.
  induction 1 as [|m ms Hm _ (blocks & IH)]; [now exists []|].
  rewrite map_blocks_cons, IH. unfold block.
  destruct (match_metadata m) as [md|]; [|contradiction].
  eexists. reflexivity.
Qed.

Lemma map_blocks_throws (ms : list Match) :
  Exists (fun m => match_metadata m = None) ms ->
  exists message, map_blocks ms = Threw (TypeError message).
Proof.
  induction ms as [|m ms IH]; intros Hex; [inversion Hex|].
  rewrite map_blocks_cons.
  destruct (block m) as [b|e] eqn:Hb.
  - assert (Hm : match_metadata m <> None).
    { unfold block in Hb. destruct (match_metadata m); [discriminate|].
      discriminate. }
    inversion Hex as [? ? Hnone|? ? Hrest]; subst; [contradiction|].
    destruct (IH Hrest) as (message & ->). eexists. reflexivity.
  - apply block_throws_TypeError in Hb as (_ & message & ->).
    eexists. reflexivity.
Qed.

End RetrieverErrors.

(** X13.  A failing collaborator aborts the retrieval with its own
    exception: when the embedding call throws, the index is not queried;
    when the index query throws, nothing is formatted. *)
Theorem retrieveKnowledge_propagates_failures (w : World) (q : jsstring) :
  (forall e,
      w_embed w [] (Rag.embed_request q) = Threw e ->
      run w (Rag.retrieveKnowledge q)
      = ([EvEmbed (Rag.embed_request q)], Threw e))
  /\ (forall v e,
         w_embed w [] (Rag.embed_request q) = Ok v ->
         w_query w [EvEmbed (Rag.embed_request q)] (Rag.query_request v)
         = Threw e ->
         run w (Rag.retrieveKnowledge q)
         = ([EvEmbed (Rag.embed_request q); EvQuery (Rag.query_request v)],
            Threw e)).
Proof.
  split.
  - intros e He. now rewrite run_retrieveKnowledge, He.
  - intros v e Hv He. now rewrite run_retrieveKnowledge, Hv, He.
Qed.

Lemma retrieveKnowledge_propagates_failures_witness :
  run Fixtures.offline_world (Rag.retrieveKnowledge (lit "auth"))
  = ([EvEmbed (Rag.embed_request (lit "auth"))],
     Threw (UpstreamError (lit "ECONNREFUSED"))).
Proof.
  apply (proj1 (retrieveKnowledge_propagates_failures
                  Fixtures.offline_world (lit "auth"))).
  reflexivity.
Defined.

(** X14.  Whatever the embedding service and the index answer, a context the
    retriever returns is never the empty string: it is the sentinel or it
    begins with '[source: '. *)
Theorem retrieveKnowledge_result_nonempty (w : World) (q s : jsstring) :
  snd (run w (Rag.retrieveKnowledge q)) = Ok s ->
  s <> []
  /\ (s = Rag.NO_MATCH \/ exists rest, s = lit "[source: " ++ rest).
Proof.
  rewrite run_retrieveKnowledge.
  destruct (w_embed w [] (Rag.embed_request q)) as [v|e]; [|discriminate].
  destruct (w_query w _ (Rag.query_request v)) as [response|e];
    [|discriminate].
  cbn [snd].
  assert (Hsentinel : Rag.NO_MATCH <> []) by discriminate.
  destruct (matches response) as [[|m ms]|];
    try (intros [= <-]; split; [exact Hsentinel|now left]).
  unfold Rag.format_context. rewrite map_blocks_cons.
  destruct (Rag.block m) as [b|e] eqn:Hb; [|discriminate].
  destruct (Rag.map_blocks ms) as [bs|e]; [|discriminate].
  intros Hs. assert (Hjoin : join Rag.SEPARATOR (b :: bs) = s) by congruence.
  clear Hs. subst s.
  destruct (block_starts_with_label m b Hb) as (rest & Hlabel).
  clear Hb. subst b.
  assert (Hshape : exists tail,
             join Rag.SEPARATOR ((lit "[source: " ++ rest) :: bs)
             = lit "[source: " ++ tail).
  { destruct bs as [|b' bs].
    - exists rest. reflexivity.
    - exists (rest ++ Rag.SEPARATOR ++ join Rag.SEPARATOR (b' :: bs)).
      change (join Rag.SEPARATOR ((lit "[source: " ++ rest) :: b' :: bs))
        with ((lit "[source: " ++ rest)
                ++ Rag.SEPARATOR ++ join Rag.SEPARATOR (b' :: bs)).
      now rewrite <- app_assoc. }
  destruct Hshape as (tail & Htail).
  set (s := join Rag.SEPARATOR _) in *.
  split; [|right; now exists tail].
  rewrite Htail. discriminate.
Qed.

Lemma retrieveKnowledge_result_nonempty_witness :
  Rag.NO_MATCH <> []
  /\ (Rag.NO_MATCH = Rag.NO_MATCH
      \/ exists rest, Rag.NO_MATCH = lit "[source: " ++ rest).
Proof.
  apply (retrieveKnowledge_result_nonempty
           Demo.silent_world (lit "auth") Rag.NO_MATCH).
  reflexivity.
Defined.

(** X15.  Formatting succeeds exactly when every match carries metadata:
    one match without metadata makes the whole retrieval throw a TypeError,
    whatever the other matches are; and a match with metadata but no text is
    rendered with the text 'undefined'. *)
Theorem format_context_needs_metadata (ms : list Match) :
  (Forall (fun m => match_metadata m <> None) ms ->
   exists s, Rag.format_context ms = Ok s)
  /\ (Exists (fun m => match_metadata m = None) ms ->
      exists message, Rag.format_context ms = Threw (TypeError message))
  /\ (forall m md,
         match_metadata m = Some md -> mm_text md = None ->
         Rag.block m
         = Ok (lit "[source: " ++ spec_label m ++ lit "]" ++ [LF]
               ++ lit "undefined")).
Proof.
  unfold Rag.format_context. split; [|split].
  - intros Hall. destruct (map_blocks_ok ms Hall) as (blocks & ->).
    eexists. reflexivity.
  - intros Hex. destruct (map_blocks_throws ms Hex) as (message & ->).
    eexists. reflexivity.
  - intros m md Hmd Htext. unfold Rag.block. rewrite Hmd, Htext.
    now rewrite (sourceName_label m md Hmd).
Qed.

Lemma format_context_needs_metadata_witness :
  exists message,
    Rag.format_context [Demo.match_a; Fixtures.bare_match]
    = Threw (TypeError message).
Proof.
  apply (proj1 (proj2 (format_context_needs_metadata
                         [Demo.match_a; Fixtures.bare_match]))).
  right. left. reflexivity.
Defined.

(** * Further properties of the agent controller *)

Section ControllerFacts.

Import Agent.

Lemma run_chatWithAgent_no_body (w : World) (req : Request) :
  req_body req = None ->
  run w (chatWithAgent req)
  = ([], Ok {| status := 500;
               res_body := ErrorBody (lit "Internal Server Error") |}).
Proof.
  intros Hb. unfold chatWithAgent, chat_body. rewrite Hb. reflexivity.
Qed.


(** Collecting the tool output appends, for every tool-result part in
    order, its payload and a line feed. *)
Lemma fold_add_part_payloads (parts : list Part) (acc : jsstring) :
  fold_left add_part parts acc
  = acc ++ concat (map (fun x => x ++ [LF])
                       (map payload (List.filter is_tool_result parts))).
Proof.
  revert acc. induction parts as [|part parts IH]; intros acc; simpl.
  - now rewrite app_nil_r.
  - rewrite IH. unfold add_part, is_tool_result.
    destruct (streq (part_type part) (lit "tool-result")); [|reflexivity].
    simpl. rewrite <- !app_assoc. do 2 f_equal.
    unfold payload, or_else, truthy_opt.
    destruct (part_result part) as [[|x s]|];
      destruct (part_output part); reflexivity.
Qed.

Lemma fold_add_step_payloads (steps : list Step) (acc : jsstring) :
  fold_left add_step steps acc
  = acc ++ concat (map (fun x => x ++ [LF]) (tool_payloads steps)).
Proof.
  revert acc. induction steps as [|step steps IH]; intros acc; simpl.
  - now rewrite app_nil_r.
  - rewrite IH. unfold add_step.
    destruct (content step) as [parts|]; [|reflexivity].
    rewrite fold_add_part_payloads, map_app, concat_app.
    now rewrite <- app_assoc.
Qed.

End ControllerFacts.


(** X17.  When the primary call returns a text that is neither empty nor
    the literal 'undefined', that text is the answer, verbatim, and no
    second model call is made, whatever the transcript holds. *)
Theorem direct_answer_is_returned_verbatim
        (w : World) (req : Agent.Request) (b : Agent.ReqBody)
        (p s : jsstring) (result : GenResult) :
  Agent.req_body req = Some b ->
  Agent.prompt b = Some p ->
  p <> [] ->
  w_generateText w [] (Agent.primary_request p) = Ok result ->
  gr_text result = Some s ->
  s <> [] ->
  s <> lit "undefined" ->
  run w (Agent.chatWithAgent req)
  = ([EvGenerateText (Agent.primary_request p)],
     Ok {| Agent.status := 200; Agent.res_body := Agent.ChatBody p s |}).
Proof.
  intros Hb Hp Hne Hfirst Htext Hs Hund.
  rewrite (run_chatWithAgent_valid w req b p Hb Hp Hne). cbv zeta.
  rewrite Hfirst, Htext. simpl truthy_opt.
  apply truthy_nonempty in Hs as Htruthy. rewrite Htruthy.
  now rewrite (safety_net_usable s Hs Hund).
Qed.

Lemma direct_answer_is_returned_verbatim_witness :
  run Fixtures.direct_world (Agent.chatWithAgent Demo.hello)
  = ([EvGenerateText (Agent.primary_request (lit "hello"))],
     Ok {| Agent.status := 200;
           Agent.res_body :=
             Agent.ChatBody (lit "hello") (lit "Use the App Router.") |}).
Proof.
  apply (direct_answer_is_returned_verbatim
           Fixtures.direct_world Demo.hello
           {| Agent.prompt := Some (lit "hello") |} (lit "hello")
           (lit "Use the App Router.")
           {| gr_text := Some (lit "Use the App Router."); gr_steps := [] |}
           eq_refl eq_refl);
    try reflexivity; discriminate.
Defined.

(** X18.  When the primary call returns the literal text 'undefined', the
    fallback synthesis is skipped even if the transcript holds tool results:
    one model call, answer the apology. *)
Theorem undefined_text_skips_fallback
        (w : World) (req : Agent.Request) (b : Agent.ReqBody)
        (p : jsstring) (result : GenResult) :
  Agent.req_body req = Some b ->
  Agent.prompt b = Some p ->
  p <> [] ->
  w_generateText w [] (Agent.primary_request p) = Ok result ->
  gr_text result = Some (lit "undefined") ->
  run w (Agent.chatWithAgent req)
  = ([EvGenerateText (Agent.primary_request p)],
     Ok {| Agent.status := 200;
           Agent.res_body := Agent.ChatBody p Agent.APOLOGY |}).
Proof.
  intros Hb Hp Hne Hfirst Htext.
  rewrite (run_chatWithAgent_valid w req b p Hb Hp Hne). cbv zeta.
  rewrite Hfirst, Htext. reflexivity.
Qed.

Lemma undefined_text_skips_fallback_witness :
  run Fixtures.undefined_world (Agent.chatWithAgent Demo.hello)
  = ([EvGenerateText (Agent.primary_request (lit "hello"))],
     Ok {| Agent.status := 200;
           Agent.res_body := Agent.ChatBody (lit "hello") Agent.APOLOGY |}).
Proof.
  apply (undefined_text_skips_fallback
           Fixtures.undefined_world Demo.hello
           {| Agent.prompt := Some (lit "hello") |} (lit "hello")
           {| gr_text := Some (lit "undefined");
              gr_steps := [Demo.tool_step] |}
           eq_refl eq_refl);
    try reflexivity. discriminate.
Defined.

(** X19.  A throwing model call is not retried and leaks nothing: when the
    primary call throws, the handler stops after that one call with the
    fixed 500 body; a request without a parsed body gets the same 500 body
    without any call. *)
Theorem failed_model_call_gives_500
        (w : World) (req : Agent.Request) :
  (Agent.req_body req = None ->
   run w (Agent.chatWithAgent req)
   = ([], Ok {| Agent.status := 500;
                Agent.res_body :=
                  Agent.ErrorBody (lit "Internal Server Error") |}))
  /\ (forall b p e,
         Agent.req_body req = Some b ->
         Agent.prompt b = Some p ->
         p <> [] ->
         w_generateText w [] (Agent.primary_request p) = Threw e ->
         run w (Agent.chatWithAgent req)
         = ([EvGenerateText (Agent.primary_request p)],
            Ok {| Agent.status := 500;
                  Agent.res_body :=
                    Agent.ErrorBody (lit "Internal Server Error") |})).
Proof.
  split.
  - apply run_chatWithAgent_no_body.
  - intros b p e Hb Hp Hne Hfirst.
    rewrite (run_chatWithAgent_valid w req b p Hb Hp Hne). cbv zeta.
    now rewrite Hfirst.
Qed.

Lemma failed_model_call_gives_500_witness :
  run Fixtures.offline_world (Agent.chatWithAgent Demo.hello)
  = ([EvGenerateText (Agent.primary_request (lit "hello"))],
     Ok {| Agent.status := 500;
           Agent.res_body :=
             Agent.ErrorBody (lit "Internal Server Error") |}).
Proof.
  apply (proj2 (failed_model_call_gives_500 Fixtures.offline_world Demo.hello)
               {| Agent.prompt := Some (lit "hello") |} (lit "hello")
               (UpstreamError (lit "ECONNREFUSED")) eq_refl eq_refl);
    [discriminate|reflexivity].
Defined.

(** X20.  The search tool runs the retriever on the model's query when it
    gave a non-empty one and on the user's prompt otherwise; in a validated
    request (non-empty prompt) the first thing it does is embed a non-empty
    string. *)
Theorem search_tool_query_fallback (p : jsstring) (args : Agent.ToolArgs) :
  (Agent.arg_query args = None \/ Agent.arg_query args = Some [] ->
   Agent.apply_closure (tool_execute (Agent.searchCompanyDocs p)) args
   = Rag.retrieveKnowledge p)
  /\ (forall q,
         Agent.arg_query args = Some q -> q <> [] ->
         Agent.apply_closure (tool_execute (Agent.searchCompanyDocs p)) args
         = Rag.retrieveKnowledge q)
  /\ (p <> [] ->
      forall w, exists v rest,
        v <> []
        /\ fst (run w (Agent.apply_closure
                         (tool_execute (Agent.searchCompanyDocs p)) args))
           = EvEmbed (Rag.embed_request v) :: rest).
Proof.
  simpl. unfold Agent.searchCompanyDocs_execute, or_else.
  split; [|split].
  - intros [-> | ->]; reflexivity.
  - intros q -> Hq. apply truthy_nonempty in Hq. simpl. now rewrite Hq.
  - intros Hp w.
    set (v := to_string (if truthy_opt (Agent.arg_query args)
                         then Agent.arg_query args else Some p)).
    assert (Hv : v <> []).
    { subst v. destruct (Agent.arg_query args) as [[|x q]|]; simpl;
        [exact Hp|discriminate|exact Hp]. }
    exists v. rewrite run_retrieveKnowledge.
    destruct (w_embed w [] (Rag.embed_request v)) as [emb|e].
    + destruct (w_query w _ _) as [response|e]; eexists; split; auto;
        reflexivity.
    + eexists. split; [exact Hv|reflexivity].
Qed.

Lemma search_tool_query_fallback_witness :
  Agent.apply_closure (tool_execute (Agent.searchCompanyDocs (lit "hello")))
                      {| Agent.arg_query := Some [] |}
  = Rag.retrieveKnowledge (lit "hello").
Proof.
  apply (proj1 (search_tool_query_fallback
                  (lit "hello") {| Agent.arg_query := Some [] |})).
  right. reflexivity.
Defined.

(** X21.  The context handed to the fallback synthesis consists of the
    payloads of the tool-result parts of the transcript, in transcript
    order, each followed by a line feed, and of nothing else; the payload of
    a part is its [result] when that is a non-empty string, else its
    [output], else the text 'undefined'.  Collecting over two transcripts
    in a row concatenates the two contexts. *)
Theorem collect_tool_output_lists_payloads (steps more : list Step) :
  Agent.collect_tool_output steps
  = concat (map (fun x => x ++ [LF]) (tool_payloads steps))
  /\ Agent.collect_tool_output (steps ++ more)
     = Agent.collect_tool_output steps ++ Agent.collect_tool_output more.
Proof.
  unfold Agent.collect_tool_output.
  rewrite !fold_add_step_payloads. simpl. split; [reflexivity|].
  unfold tool_payloads. rewrite flat_map_app, map_app, concat_app.
  reflexivity.
Qed.

Lemma collect_tool_output_example :
  Agent.collect_tool_output [Demo.tool_step; Demo.tool_step]
  = lit "[source: a.md]" ++ [LF] ++ lit "[source: a.md]" ++ [LF].
Proof. vm_compute. reflexivity. Qed.

(** * Properties of the chat page *)

Section PageFacts.

Import ChatPage.



Lemma error_content_nonempty (t : Thrown) : error_content t <> [].
Proof. destruct t; discriminate. Qed.

Lemma reply_content_nonempty (outcome : Settled HttpResponse) :
  reply_content outcome <> [].
Proof.
  unfold reply_content.
  destruct outcome as [res|t]; [|apply error_content_nonempty].
  destruct (ok res); cbn [negb]; [|apply error_content_nonempty].
  destruct (json res) as [data|t]; [|apply error_content_nonempty].
  destruct (answer data) as [[|x s]|]; discriminate.
Qed.

Lemma begin_send_Some (api_url id : jsstring) (timestamp : Z)
      (st st1 : PageState) (req : FetchRequest) :
  begin_send api_url id timestamp st = Some (st1, req) ->
  trim (input st) <> []
  /\ isLoading st = false
  /\ st1 = {| messages :=
                messages st
                ++ [ {| msg_id := id; msg_role := User;
                        msg_content := trim (input st);
                        msg_timestamp := timestamp |} ];
              input := [];
              isLoading := true |}
  /\ req = {| url := api_url ++ lit "/api/chat";
              method := lit "POST";
              content_type := lit "application/json";
              body_prompt := trim (input st) |}.
Proof.
  unfold begin_send. cbv zeta.
  destruct (truthy (trim (input st))) eqn:Ht; simpl; [|discriminate].
  destruct (isLoading st); simpl; [discriminate|].
  intros H. apply truthy_nonempty in Ht.
  split; [exact Ht|]. split; [reflexivity|].
  split; congruence.
Qed.

End PageFacts.



(** X23.  A send that passes the guard posts the trimmed, non-empty input
    as the prompt to [<API_URL>/api/chat], and once the request has settled,
    however it settled, the page shows exactly two more messages, the
    user's trimmed text followed by one assistant message whose content is
    never empty, with the input cleared and the loading flag off. *)
Theorem send_appends_question_and_reply
        (api_url id1 id2 : jsstring) (t1 t2 : Z)
        (st st1 : ChatPage.PageState) (req : ChatPage.FetchRequest)
        (outcome : ChatPage.Settled ChatPage.HttpResponse) :
  ChatPage.begin_send api_url id1 t1 st = Some (st1, req) ->
  ChatPage.body_prompt req = trim (ChatPage.input st)
  /\ ChatPage.body_prompt req <> []
  /\ ChatPage.url req = api_url ++ lit "/api/chat"
  /\ ChatPage.finish_send id2 t2 outcome st1
     = {| ChatPage.messages :=
            ChatPage.messages st
            ++ [ {| ChatPage.msg_id := id1;
                    ChatPage.msg_role := ChatPage.User;
                    ChatPage.msg_content := trim (ChatPage.input st);
                    ChatPage.msg_timestamp := t1 |};
                 {| ChatPage.msg_id := id2;
                    ChatPage.msg_role := ChatPage.Assistant;
                    ChatPage.msg_content := ChatPage.reply_content outcome;
                    ChatPage.msg_timestamp := t2 |} ];
          ChatPage.input := [];
          ChatPage.isLoading := false |}
  /\ ChatPage.reply_content outcome <> [].
Proof.
  intros H. apply begin_send_Some in H as (Hne & _ & -> & ->).
  simpl. repeat split; auto.
  - unfold ChatPage.finish_send. simpl. now rewrite <- app_assoc.
  - apply reply_content_nonempty.
Qed.

Lemma send_appends_question_and_reply_witness :
  ChatPage.body_prompt
    {| ChatPage.url := lit "http://localhost:3001/api/chat";
       ChatPage.method := lit "POST";
       ChatPage.content_type := lit "application/json";
       ChatPage.body_prompt := lit "How does auth work?" |}
  = trim (ChatPage.input Fixtures.typing).
Proof.
  refine (proj1 (send_appends_question_and_reply
                   (lit "http://localhost:3001") (lit "u1") (lit "u2") 1 2
                   Fixtures.typing _ _
                   (ChatPage.RejectedWith ChatPage.OtherValue) _)).
  vm_compute. reflexivity.
Defined.

(** X24.  The page and the handler fit together: the request a send posts
    is never answered 400 by the chat handler, whatever the model does; when
    the handler answers 200, an ok response carrying that answer is shown
    verbatim (the page's 'no response' text is not used); when it answers
    500, the page shows the server-error text. *)
Theorem page_request_is_always_valid
        (api_url id : jsstring) (timestamp : Z)
        (st st1 : ChatPage.PageState) (req : ChatPage.FetchRequest)
        (w : World) :
  ChatPage.begin_send api_url id timestamp st = Some (st1, req) ->
  exists evs resp,
    run w (Agent.chatWithAgent (ChatPage.handler_request req)) = (evs, Ok resp)
    /\ Agent.status resp <> 400
    /\ (Agent.status resp = 200 ->
        exists reply,
          Agent.res_body resp = Agent.ChatBody (trim (ChatPage.input st)) reply
          /\ ChatPage.reply_content
               (ChatPage.Fulfilled
                  {| ChatPage.ok := true;
                     ChatPage.http_status := 200;
                     ChatPage.json :=
                       ChatPage.Fulfilled
                         {| ChatPage.answer := Some reply |} |})
             = reply)
    /\ (Agent.status resp = 500 ->
        forall body,
          ChatPage.reply_content
            (ChatPage.Fulfilled
               {| ChatPage.ok := false;
                  ChatPage.http_status := 500;
                  ChatPage.json := body |})
          = ChatPage.WARNING ++ lit " Error: Server error: 500").
Proof.
  intros H. apply begin_send_Some in H as (Hne & _ & _ & ->).
  set (p := trim (ChatPage.input st)) in *.
  assert (Hshow : forall t,
             ChatPage.reply_content
               (ChatPage.Fulfilled
                  {| ChatPage.ok := true;
                     ChatPage.http_status := 200;
                     ChatPage.json :=
                       ChatPage.Fulfilled
                         {| ChatPage.answer := Some (Agent.safety_net t) |} |})
             = Agent.safety_net t).
  { intros t. destruct (safety_net_nonempty t) as [Hn _].
    unfold ChatPage.reply_content. simpl.
    destruct (Agent.safety_net t); [contradiction|reflexivity]. }
  match goal with
  | |- context [Agent.chatWithAgent ?r] =>
      rewrite (run_chatWithAgent_valid w r {| Agent.prompt := Some p |} p
                 eq_refl eq_refl Hne)
  end.
  cbv zeta.
  destruct (w_generateText w [] (Agent.primary_request p)) as [result|e].
  - destruct (truthy_opt (gr_text result)).
    { eexists _, _. split; [reflexivity|]. simpl.
      split; [discriminate|]. split; [|discriminate].
      intros _. eexists. split; [reflexivity|apply Hshow]. }
    destruct (has_tool_result (gr_steps result)).
    + destruct (w_generateText w _ _) as [summary|e];
        eexists _, _; (split; [reflexivity|]); simpl;
        (split; [discriminate|]).
      * split; [|discriminate].
        intros _. eexists. split; [reflexivity|apply Hshow].
      * split; [discriminate|]. intros _ body. reflexivity.
    + eexists _, _. split; [reflexivity|]. simpl.
      split; [discriminate|]. split; [|discriminate].
      intros _. eexists. split; [reflexivity|]. reflexivity.
  - eexists _, _. split; [reflexivity|]. simpl.
    split; [discriminate|]. split; [discriminate|].
    intros _ body. reflexivity.
Qed.

Lemma page_request_is_always_valid_witness :
  exists evs resp,
    run Fixtures.direct_world
        (Agent.chatWithAgent
           (ChatPage.handler_request
              {| ChatPage.url := lit "http://localhost:3001/api/chat";
                 ChatPage.method := lit "POST";
                 ChatPage.content_type := lit "application/json";
                 ChatPage.body_prompt := lit "How does auth work?" |}))
    = (evs, Ok resp)
    /\ Agent.status resp <> 400.
Proof.
  destruct (page_request_is_always_valid
              (lit "http://localhost:3001") (lit "u1") 1
              Fixtures.typing _ _ Fixtures.direct_world
              ltac:(vm_compute; reflexivity))
    as (evs & resp & Hrun & Hstatus & _).
  exists evs, resp. split; [exact Hrun|exact Hstatus].
Defined.
